(** * html-text-highlighting: range normalisation, escaping, highlighting

    A shallow embedding of [challenge.ts] (range pipeline, HTML escaper,
    segment extraction, full-text and excerpt highlighters, facade) together
    with the parts of the ECMAScript string and regular-expression library
    the code relies on, and the properties of the specification proved or
    refuted against it.

    Modelling conventions.
    - A JavaScript string is the list of its UTF-16 code units ([N]).
    - A [number] holding an offset is a [Z] (offsets are integers, taken
      without a bound); [Range] is a pair of them.
    - Arrays are lists; the one in-place array update of the facade and the
      in-place rewrite of a segment's [context] are explicit list updates.
    - A thrown exception is the [Throw] result of the facade. *)

From Stdlib Require Import ZArith NArith List Bool Lia String Ascii.
From Stdlib Require Import Sorting.Sorted Sorting.Permutation.
From Stdlib Require Decimal DecimalString DecimalPos DecimalZ.
Import ListNotations.
Open Scope Z_scope.

(* ================================================================== *)
(** ** JavaScript strings *)

Module JS.

Abbreviation char := N (only parsing).
Abbreviation jsstring := (list N) (only parsing).

(** Code units of a literal of the development (all of them ASCII). *)
Definition codes (s : string) : jsstring :=
  map N_of_ascii (list_ascii_of_string s).

(** [s.length] *)
Definition len (s : jsstring) : Z := Z.of_nat (List.length s).

(** Truthiness of a string: only the empty string is falsy. *)
Definition truthy (s : jsstring) : bool :=
  match s with [] => false | _ :: _ => true end.

(** WhiteSpace and LineTerminator code units: the set stripped by
    [String.prototype.trim] and matched by [\s]. *)
Definition is_ws (c : char) : bool :=
  ((9 <=? c) && (c <=? 13) || (c =? 32) || (c =? 160) || (c =? 5760)
   || ((8192 <=? c) && (c <=? 8202)) || (c =? 8232) || (c =? 8233)
   || (c =? 8239) || (c =? 8287) || (c =? 12288) || (c =? 65279))%N.

(** LineTerminator code units, which [.] does not match. *)
Definition is_line_terminator (c : char) : bool :=
  ((c =? 10) || (c =? 13) || (c =? 8232) || (c =? 8233))%N.

(** [\w] is [A-Za-z0-9_]. *)
Definition is_word (c : char) : bool :=
  ((65 <=? c) && (c <=? 90) || (97 <=? c) && (c <=? 122)
   || (48 <=? c) && (c <=? 57) || (c =? 95))%N.

(** The class [.,!?] *)
Definition is_punct (c : char) : bool :=
  ((c =? 46) || (c =? 44) || (c =? 33) || (c =? 63))%N.

Fixpoint dropWhile (p : char -> bool) (s : jsstring) : jsstring :=
  match s with
  | [] => []
  | c :: s' => if p c then dropWhile p s' else s
  end.

Definition trimStart (s : jsstring) : jsstring := dropWhile is_ws s.
Definition trimEnd (s : jsstring) : jsstring := List.rev (dropWhile is_ws (List.rev s)).

(** [s.trim()] *)
Definition trim (s : jsstring) : jsstring := trimEnd (trimStart s).

(** Resolution of a relative index against a length, as [slice] does:
    a negative index counts from the end, and the result is clamped to
    [0, n]. *)
Definition rel_index (n k : Z) : Z :=
  if k <? 0 then Z.max (n + k) 0 else Z.min k n.

(** [s.slice(start, end)]; [None] is an omitted [end]. *)
Definition slice (s : jsstring) (start : Z) (end_ : option Z) : jsstring :=
  let n := len s in
  let from := rel_index n start in
  let to := match end_ with None => n | Some e => rel_index n e end in
  firstn (Z.to_nat (to - from)) (skipn (Z.to_nat from) s).

Fixpoint starts_with (p s : jsstring) : bool :=
  match p, s with
  | [], _ => true
  | _ :: _, [] => false
  | a :: p', b :: s' => (a =? b)%N && starts_with p' s'
  end.

(** Least [k] such that [p] occurs in [s] at offset [k]. *)
Fixpoint find_from (p s : jsstring) : option nat :=
  if starts_with p s then Some O
  else match s with
       | [] => None
       | _ :: s' => option_map S (find_from p s')
       end.

(** [s.indexOf(p, position)]: the position is clamped to [0, s.length];
    the result is [-1] when there is no occurrence. *)
Definition indexOf (s p : jsstring) (position : Z) : Z :=
  let start := Z.min (Z.max position 0) (len s) in
  match find_from p (skipn (Z.to_nat start) s) with
  | Some k => start + Z.of_nat k
  | None => -1
  end.

(** [Number.prototype.toString] on an integer: decimal digits, a leading
    minus sign for negatives. *)
Definition number_to_string (z : Z) : jsstring :=
  codes (DecimalString.NilZero.string_of_int (Z.to_int z)).

End JS.
Import JS.

(* ================================================================== *)
(** ** Ranges and the normalisation pipeline *)

Definition Range : Type := Z * Z.

(** The sort comparator [(a, b) => a[0] - b[0] || a[1] - b[1]]. *)
Definition compareRanges (a b : Range) : Z :=
  if negb (fst a - fst b =? 0) then fst a - fst b else snd a - snd b.

(** [Array.prototype.sort] with a comparator: a stable sort, here by
    insertion. *)
Section Sort.
Variable A : Type.
Variable cmp : A -> A -> Z.

Fixpoint insert_sorted (x : A) (l : list A) : list A :=
  match l with
  | [] => [x]
  | y :: l' => if cmp x y <=? 0 then x :: l else y :: insert_sorted x l'
  end.

Fixpoint array_sort (l : list A) : list A :=
  match l with
  | [] => []
  | x :: l' => insert_sorted x (array_sort l')
  end.
End Sort.
Arguments insert_sorted {A}.
Arguments array_sort {A}.

Definition normalizeRanges (ranges : list Range) : list Range :=
  array_sort compareRanges
    (map (fun '(a, b) => (Z.min a b, Z.max a b)) ranges).

(** [JSON.stringify] of a two-element array of integers. *)
Definition JSON_stringify (r : Range) : jsstring :=
  codes "[" ++ number_to_string (fst r) ++ codes ","
    ++ number_to_string (snd r) ++ codes "]".

(** A [Map] with string keys: entries in insertion order; setting an
    existing key replaces its value and keeps its place. *)
Definition JsMap (V : Type) : Type := list (jsstring * V).

Definition key_eqb (a b : jsstring) : bool :=
  if list_eq_dec N.eq_dec a b then true else false.

Fixpoint Map_set {V} (k : jsstring) (v : V) (m : JsMap V) : JsMap V :=
  match m with
  | [] => [(k, v)]
  | (k', v') :: m' =>
      if key_eqb k' k then (k', v) :: m' else (k', v') :: Map_set k v m'
  end.

(** [new Map(entries)] *)
Definition Map_new {V} (entries : list (jsstring * V)) : JsMap V :=
  fold_left (fun m kv => Map_set (fst kv) (snd kv) m) entries [].

(** [[...m.values()]] *)
Definition Map_values {V} (m : JsMap V) : list V := map snd m.

Definition removeDuplicates (ranges : list Range) : list Range :=
  Map_values (Map_new (map (fun range => (JSON_stringify range, range)) ranges)).

(** One step of the reducer of [mergeRanges]; [merged] is the accumulator,
    whose last element is read and either replaced or followed by a new
    one. *)
Definition mergeStep (merged : list Range) (r : Range) : list Range :=
  let '(start, end_) := r in
  match merged with
  | [] => [(start, end_)]
  | _ :: _ =>
      let '(lastStart, lastEnd) := last merged (0, 0) in
      if start <=? lastEnd
      then removelast merged ++ [(lastStart, Z.max lastEnd end_)]
      else merged ++ [(start, end_)]
  end.

Definition mergeRanges (ranges : list Range) : list Range :=
  match ranges with
  | [] => []
  | _ :: _ => fold_left mergeStep ranges []
  end.

(** The pipeline of the facade:
    [[normalizeRanges, removeDuplicates, mergeRanges].reduce((r, fn) => fn(r), ranges)]. *)
Definition processRanges (ranges : list Range) : list Range :=
  fold_left (fun result fn => fn result)
    [normalizeRanges; removeDuplicates; mergeRanges] ranges.

(* ================================================================== *)
(** ** Regular expressions

    A backtracking matcher for the fragment of ECMAScript regular
    expressions the code uses: classes, literal characters, the assertions
    [^], [$] and [\b] (no flags, so [^] and [$] are the ends of the input),
    sequence, alternation, greedy [*] and [+] over a one-character class,
    and capture groups. *)

Module Re.

Inductive regex : Type :=
| Eps
| Cls (p : char -> bool)
| Bol
| Eol
| WordB
| Seq (a b : regex)
| Alt (a b : regex)
| Star (p : char -> bool)
| Plus (p : char -> bool)
| Grp (n : nat) (r : regex).

(** A literal character and the dot. *)
Definition Chr (c : char) : regex := Cls (N.eqb c).
Definition Dot : regex := Cls (fun c => negb (is_line_terminator c)).

Definition caps : Type := list (nat * jsstring).

Fixpoint capture (n : nat) (c : caps) : option jsstring :=
  match c with
  | [] => None
  | (k, s) :: c' => if Nat.eqb k n then Some s else capture n c'
  end.

(** The matcher runs on the input that remains, knowing the character just
    before it (for [^] and [\b]); a continuation receives the state after
    the match and fails to make the matcher backtrack. *)
Definition cont : Type :=
  option char -> jsstring -> caps -> option (jsstring * caps).

Definition word_before (prev : option char) : bool :=
  match prev with Some c => is_word c | None => false end.
Definition word_after (s : jsstring) : bool :=
  match s with c :: _ => is_word c | [] => false end.

Fixpoint star (p : char -> bool) (k : cont)
    (prev : option char) (s : jsstring) (c : caps) : option (jsstring * caps) :=
  match s with
  | a :: s' =>
      if p a
      then match star p k (Some a) s' c with
           | Some r => Some r
           | None => k prev s c
           end
      else k prev s c
  | [] => k prev s c
  end.

Fixpoint run (r : regex) (k : cont)
    (prev : option char) (s : jsstring) (c : caps) : option (jsstring * caps) :=
  match r with
  | Eps => k prev s c
  | Cls p =>
      match s with
      | a :: s' => if p a then k (Some a) s' c else None
      | [] => None
      end
  | Bol => match prev with None => k prev s c | Some _ => None end
  | Eol => match s with [] => k prev s c | _ :: _ => None end
  | WordB => if xorb (word_before prev) (word_after s) then k prev s c else None
  | Seq a b => run a (run b k) prev s c
  | Alt a b =>
      match run a k prev s c with
      | Some res => Some res
      | None => run b k prev s c
      end
  | Star p => star p k prev s c
  | Plus p =>
      match s with
      | a :: s' => if p a then star p k (Some a) s' c else None
      | [] => None
      end
  | Grp n r' =>
      run r'
        (fun prev' s' c' =>
           k prev' s' ((n, firstn (List.length s - List.length s') s) :: c'))
        prev s c
  end.

(** A match attempt at the current position: what remains after the match
    and the captures. *)
Definition match_at (r : regex) (prev : option char) (s : jsstring)
  : option (jsstring * caps) :=
  run r (fun _ s' c => Some (s', c)) prev s [].

Record match_result : Type := MatchResult {
  index : nat;
  matched : jsstring;
  groups : caps;
  after : jsstring
}.

(** The leftmost match at or after the current position. *)
Fixpoint exec_from (r : regex) (prev : option char) (s : jsstring) (i : nat)
  : option match_result :=
  match match_at r prev s with
  | Some (rest, c) =>
      Some (MatchResult i (firstn (List.length s - List.length rest) s) c rest)
  | None =>
      match s with
      | [] => None
      | a :: s' => exec_from r (Some a) s' (S i)
      end
  end.

(** [s.match(r)] and [r.exec(s)] for a regular expression without flags. *)
Definition exec (r : regex) (s : jsstring) : option match_result :=
  exec_from r None s 0.

(** [r.test(s)] *)
Definition test (r : regex) (s : jsstring) : bool :=
  match exec r s with Some _ => true | None => false end.

(** [s.replace(r, by)] for a regular expression without the [g] flag and a
    replacement string without [$]: the first match is replaced. *)
Definition replace (r : regex) (by_ : jsstring) (s : jsstring) : jsstring :=
  match exec r s with
  | Some mr => firstn (index mr) s ++ by_ ++ after mr
  | None => s
  end.

(** [s.replace(r, f)] for a regular expression with the [g] flag: every
    match, left to right and without overlap, is replaced by [f] of the
    matched text.  [skip] counts the characters of the current match still
    to be passed over; after an empty match the scan advances by one
    character, which is copied. *)
Fixpoint replace_all_from (r : regex) (f : jsstring -> jsstring)
    (prev : option char) (s : jsstring) (skip : nat) {struct s} : jsstring :=
  match skip with
  | S n =>
      match s with
      | [] => []
      | a :: s' => replace_all_from r f (Some a) s' n
      end
  | O =>
      match match_at r prev s with
      | Some (rest, _) =>
          let mt := firstn (List.length s - List.length rest) s in
          f mt ++
          match s with
          | [] => []
          | a :: s' =>
              match mt with
              | [] => a :: replace_all_from r f (Some a) s' 0
              | _ :: mt' => replace_all_from r f (Some a) s' (List.length mt')
              end
          end
      | None =>
          match s with
          | [] => []
          | a :: s' => a :: replace_all_from r f (Some a) s' 0
          end
      end
  end.

Definition replace_all (r : regex) (f : jsstring -> jsstring) (s : jsstring)
  : jsstring :=
  replace_all_from r f None s 0.

End Re.

(* ================================================================== *)
(** ** HTML escaping *)

(** The object literal [htmlEscapes], keys in source order; code unit 34
    is the double quote. *)
Definition htmlEscapes : list (jsstring * jsstring) :=
  [ (codes "&", codes "&amp;");
    (codes "<", codes "&lt;");
    (codes ">", codes "&gt;");
    ([34%N], codes "&quot;");
    (codes "'", codes "&#39;") ].

(** Property access [obj[key]]; [None] is [undefined]. *)
Fixpoint get_property (obj : list (jsstring * jsstring)) (key : jsstring)
  : option jsstring :=
  match obj with
  | [] => None
  | (k, v) :: obj' => if key_eqb k key then Some v else get_property obj' key
  end.

(** A replacer's result is converted to a string. *)
Definition to_string (v : option jsstring) : jsstring :=
  match v with Some s => s | None => codes "undefined" end.

(** The character class of the escaper's regular expression: ampersand,
    less-than, greater-than, double quote, apostrophe. *)
Definition is_html_special (c : char) : bool :=
  ((c =? 38) || (c =? 60) || (c =? 62) || (c =? 34) || (c =? 39))%N.

Definition escapeHtml (textToEscape : jsstring) : jsstring :=
  Re.replace_all (Re.Cls is_html_special)
    (fun match_ => to_string (get_property htmlEscapes match_))
    textToEscape.

(* ================================================================== *)
(** ** Segment extraction *)

Record ExtractedSegment : Type := mkSegment {
  range : Range;
  target : jsstring;
  previous : option jsstring;
  next : option jsstring;
  context : jsstring
}.

Definition is_nonword (c : char) : bool := negb (is_word c).

(** The regular expression of line 85, token by token:
    [(?: \b \w+ [.,!?]* ) \W* $]. *)
Definition re_before : Re.regex :=
  Re.Seq (Re.Seq Re.WordB (Re.Seq (Re.Plus is_word) (Re.Star is_punct)))
         (Re.Seq (Re.Star is_nonword) Re.Eol).

(** The regular expression of line 91, token by token:
    [^ \W* ( [.,!?] )  |  ^ \W* ( \w+ )]. *)
Definition re_after : Re.regex :=
  Re.Alt
    (Re.Seq Re.Bol (Re.Seq (Re.Star is_nonword) (Re.Grp 1 (Re.Cls is_punct))))
    (Re.Seq Re.Bol (Re.Seq (Re.Star is_nonword) (Re.Grp 2 (Re.Plus is_word)))).

(** The regular expression of line 114: the class [.,!?]. *)
Definition re_punct : Re.regex := Re.Cls is_punct.

(** The regular expression of line 130: [\s+], global. *)
Definition re_spaces : Re.regex := Re.Plus is_ws.

(** The regular expression of line 192, token by token:
    [^ \[ . . . \] \s+]; the three dots are not escaped in the source, so
    each stands for any character but a line terminator. *)
Definition re_seam : Re.regex :=
  Re.Seq Re.Bol
    (Re.Seq (Re.Chr 91%N)
       (Re.Seq Re.Dot (Re.Seq Re.Dot (Re.Seq Re.Dot
          (Re.Seq (Re.Chr 93%N) (Re.Plus is_ws)))))).

(** Truthiness of a [string | null] value. *)
Definition truthy_opt (v : option jsstring) : bool :=
  match v with Some s => truthy s | None => false end.

(** [v || null] on a [string | undefined] value. *)
Definition or_null (v : option jsstring) : option jsstring :=
  if truthy_opt v then v else None.

(** [a || b] on [string | null] values. *)
Definition js_or (a b : option jsstring) : option jsstring :=
  if truthy_opt a then a else b.

(** String concatenation with a [string | null] value known to be truthy. *)
Definition str (v : option jsstring) : jsstring :=
  match v with Some s => s | None => codes "null" end.

(** The value of [hasMoreContent] (line 118). *)
Definition hasMoreContent (text : jsstring) (end_ : Z) (next_ : option jsstring)
  : bool :=
  if truthy_opt next_
  then 0 <? len (trim (slice text
                         (indexOf text (str next_) end_ + len (str next_)) None))
  else false.

(** The context string up to and including the following word or
    punctuation mark (lines 98-115). *)
Definition context_upto_next (index : nat) (target_ : jsstring)
    (previous_ next_ : option jsstring) : jsstring :=
  let context0 : jsstring := [] in
  let context1 :=
    if (0 <? index)%nat then context0 ++ codes "[...] " else context0 in
  let context2 :=
    if truthy_opt previous_ then context1 ++ str previous_ else context1 in
  let context3 := context2 ++ codes " <em>" ++ target_ ++ codes "</em>" in
  if truthy_opt next_
  then context3 ++ (if Re.test re_punct (str next_)
                    then str next_
                    else codes " " ++ str next_)
  else context3.

(** The context string before the final whitespace collapse and trim
    (lines 98-123). *)
Definition raw_context (text : jsstring) (end_ : Z) (index : nat)
    (target_ : jsstring) (previous_ next_ : option jsstring) : jsstring :=
  let context4 := context_upto_next index target_ previous_ next_ in
  if hasMoreContent text end_ next_
  then context4 ++ codes " [...] "
  else context4.

Definition extractTextSegment (text : jsstring) (r : Range) (index : nat)
  : ExtractedSegment :=
  let '(start, end_) := r in
  let target_ := trim (slice text start (Some end_)) in
  let beforeText := slice text 0 (Some start) in
  let beforeMatch := Re.exec re_before beforeText in
  let previous_ :=
    match beforeMatch with
    | Some mr => Some (trim (Re.matched mr))
    | None => None
    end in
  let afterText := slice text end_ None in
  let afterMatch := Re.exec re_after afterText in
  let nextPunctuation :=
    or_null (match afterMatch with
             | Some mr => Re.capture 1 (Re.groups mr)
             | None => None
             end) in
  let nextWord :=
    or_null (match afterMatch with
             | Some mr => Re.capture 2 (Re.groups mr)
             | None => None
             end) in
  let next_ := js_or nextPunctuation nextWord in
  mkSegment (start, end_) target_ previous_ next_
    (trim (Re.replace_all re_spaces (fun _ => codes " ")
             (raw_context text end_ index target_ previous_ next_))).

(* ================================================================== *)
(** ** The two highlighters *)

(** Body of the [for] loop of [highlightText]; the state is
    [(result, lastIndex)]. *)
Definition highlightStep (text : jsstring) (st : jsstring * Z) (r : Range)
  : jsstring * Z :=
  let '(result, lastIndex) := st in
  let '(start, end_) := r in
  let rangeText := slice text start (Some end_) in
  if (List.length rangeText =? 0)%nat
  then (result, lastIndex)
  else (result ++ slice text lastIndex (Some start)
          ++ codes "<em>" ++ rangeText ++ codes "</em>",
        end_).

Definition highlightText (text : jsstring) (ranges : list Range) : jsstring :=
  if negb (truthy text) || (List.length ranges =? 0)%nat
  then []
  else
    let '(result, lastIndex) :=
      fold_left (highlightStep text) ranges ([], 0) in
    result ++ slice text lastIndex None.

(** [segments.map((range, index) => extractTextSegment(text, range, index))] *)
Fixpoint map_index {A B} (f : A -> nat -> B) (l : list A) (i : nat) : list B :=
  match l with
  | [] => []
  | x :: l' => f x i :: map_index f l' (S i)
  end.

(** Assignment to the [context] field of the segment at position [i]. *)
Fixpoint set_context (segments : list ExtractedSegment) (i : nat)
    (ctx : jsstring) : list ExtractedSegment :=
  match segments, i with
  | [], _ => []
  | sg :: rest, O =>
      mkSegment (range sg) (target sg) (previous sg) (next sg) ctx :: rest
  | sg :: rest, S i' => sg :: set_context rest i' ctx
  end.

(** The reducer of [excerptHighlighting] at position [index]; the state is
    the output so far and the segment array, whose element [index + 1] the
    reducer rewrites in place. *)
Definition excerptStep (st : jsstring * list ExtractedSegment) (index : nat)
  : jsstring * list ExtractedSegment :=
  let '(output, segments) := st in
  match nth_error segments index with
  | None => st
  | Some segment =>
      let output' := output ++ context segment in
      match nth_error segments (index + 1) with
      | Some nextSegment =>
          (output',
           set_context segments (index + 1)
             (Re.replace re_seam (codes " ") (context nextSegment)))
      | None => (output', segments)
      end
  end.

Definition excerptHighlighting (text : jsstring) (ranges : list Range)
  : jsstring :=
  if negb (truthy text) || (List.length ranges =? 0)%nat
  then []
  else
    let segments := map_index (extractTextSegment text) ranges 0 in
    trim (fst (fold_left excerptStep (seq 0 (List.length segments))
                 ([], segments))).

(* ================================================================== *)
(** ** The facade *)

Inductive error : Type :=
| Error (message : string)
| TypeError.

Inductive result : Type :=
| Return (value : jsstring)
| Throw (e : error).

(** Lines 227-229: [processedRanges[0][1]] is read and, when it equals the
    length of the text, assigned; reading it throws a [TypeError] on an
    empty array. *)
Definition fixupFirstEnd (textLength escapedLength : Z)
    (processedRanges : list Range) : option (list Range) :=
  match processedRanges with
  | [] => None
  | (start0, end0) :: rest =>
      if end0 =? textLength
      then Some ((start0, escapedLength) :: rest)
      else Some processedRanges
  end.

Definition highlightTextRanges (textToHighlight : jsstring)
    (ranges : list Range) (createExcerpt : bool) : result :=
  if negb (truthy textToHighlight)
  then Throw (Error "No text provided to highlight")
  else if (List.length ranges =? 0)%nat
  then Throw (Error "No ranges provided for highlighting")
  else
    let processedRanges := processRanges ranges in
    let escapedText := trim (escapeHtml textToHighlight) in
    match fixupFirstEnd (len textToHighlight) (len escapedText)
            processedRanges with
    | None => Throw TypeError
    | Some processedRanges' =>
        Return (if createExcerpt
                then excerptHighlighting escapedText processedRanges'
                else highlightText escapedText processedRanges')
    end.

(* ================================================================== *)
(** ** Properties of the specification, as predicates *)

(** Endpoints in order. *)
Definition ordered (r : Range) : Prop := fst r <= snd r.

(** Ascending by start, ties broken by end. *)
Definition range_le (a b : Range) : Prop :=
  fst a < fst b \/ (fst a = fst b /\ snd a <= snd b).

(** The next range starts strictly after the previous one ends. *)
Definition apart (a b : Range) : Prop := snd a < fst b.

(** Consecutive results [(s1,e1)], [(s2,e2)] satisfy [s2 > e1]. *)
Definition consecutive_apart (l : list Range) : Prop :=
  forall i s1 e1 s2 e2,
    nth_error l i = Some (s1, e1) ->
    nth_error l (S i) = Some (s2, e2) ->
    s2 > e1.

(** The merge, as a recursion that carries the last merged range. *)
Fixpoint merge_from (cur : Range) (l : list Range) : list Range :=
  match l with
  | [] => [cur]
  | (s, e) :: l' =>
      if s <=? snd cur
      then merge_from (fst cur, Z.max (snd cur) e) l'
      else cur :: merge_from (s, e) l'
  end.

(** The escaper as the specification words it: each of the five special
    characters becomes its entity, every other character is kept. *)
Definition spec_escape_char (c : char) : jsstring :=
  if (c =? 38)%N then codes "&amp;"
  else if (c =? 60)%N then codes "&lt;"
  else if (c =? 62)%N then codes "&gt;"
  else if (c =? 34)%N then codes "&quot;"
  else if (c =? 39)%N then codes "&#39;"
  else [c].

Definition spec_entities : list jsstring :=
  [codes "&amp;"; codes "&lt;"; codes "&gt;"; codes "&quot;"; codes "&#39;"].

(** [p] occurs in [s] at offset [j]. *)
Definition occurs_at (p s : jsstring) (j : nat) : Prop :=
  firstn (List.length p) (skipn j s) = p.

(** Every special character of [out] lies inside an occurrence of an
    entity. *)
Definition special_only_in_entities (out : jsstring) : Prop :=
  forall i c,
    nth_error out i = Some c -> is_html_special c = true ->
    exists e j, In e spec_entities /\ occurs_at e out j
                /\ (j <= i < j + List.length e)%nat.

(** The two outcomes of a call of the facade. *)
Definition throws (r : result) : Prop := exists e, r = Throw e.
Definition returns (r : result) : Prop := exists value, r = Return value.

(** The facade's dispatch on [createExcerpt]. *)
Definition dispatch (createExcerpt : bool) (text : jsstring)
    (ranges : list Range) : jsstring :=
  if createExcerpt then excerptHighlighting text ranges
  else highlightText text ranges.

(** [highlightText] past its guard, as a recursion over the ranges that
    carries the cursor. *)
Fixpoint highlight_from (text : jsstring) (lastIndex : Z) (ranges : list Range)
  : jsstring :=
  match ranges with
  | [] => slice text lastIndex None
  | (start, end_) :: rest =>
      if (List.length (slice text start (Some end_)) =? 0)%nat
      then highlight_from text lastIndex rest
      else slice text lastIndex (Some start)
             ++ codes "<em>" ++ slice text start (Some end_) ++ codes "</em>"
             ++ highlight_from text end_ rest
  end.

(** Deleting every occurrence of the two markers, left to right; [skip]
    counts the characters of the current marker still to be deleted. *)
Fixpoint strip_markers_from (skip : nat) (s : jsstring) : jsstring :=
  match s with
  | [] => []
  | c :: s' =>
      match skip with
      | S n => strip_markers_from n s'
      | O =>
          if starts_with (codes "<em>") s then strip_markers_from 3 s'
          else if starts_with (codes "</em>") s then strip_markers_from 4 s'
          else c :: strip_markers_from 0 s'
      end
  end.

Definition strip_markers (s : jsstring) : jsstring := strip_markers_from 0 s.

(** Two ranges, read as half-open intervals, share no offset. *)
Definition disjoint (a b : Range) : Prop :=
  snd a <= fst b \/ snd b <= fst a \/ fst a = snd a \/ fst b = snd b.

(** Ascending starts; weaker than [range_le]. *)
Definition starts_ascending (a b : Range) : Prop := fst a <= fst b.

(** The hypotheses on a range list of the round-trip property: offsets
    within the text and in order, sorted ascending, pairwise disjoint. *)
Definition well_placed (text : jsstring) (ranges : list Range) : Prop :=
  Forall (fun r => 0 <= fst r /\ fst r <= snd r /\ snd r <= len text) ranges
  /\ StronglySorted starts_ascending ranges
  /\ ForallOrdPairs disjoint ranges.

(** The seam rewrite as the specification words it: a leading ellipsis
    marker and space become a single space. *)
Definition strip_leading_ellipsis (ctx : jsstring) : jsstring :=
  if starts_with (codes "[...] ") ctx then codes " " ++ skipn 6 ctx else ctx.

(** Every context but the first is rewritten. *)
Definition seam_rewritten (contexts : list jsstring) : list jsstring :=
  match contexts with
  | [] => []
  | c :: cs => c :: map strip_leading_ellipsis cs
  end.

(** [t] is what remains of [s] after some prefix; [g] is a run of
    consecutive characters of [s]. *)
Definition is_suffix (t s : jsstring) : Prop := exists m, s = m ++ t.
Definition is_substring (g s : jsstring) : Prop := exists a b, s = a ++ g ++ b.

(** Every capture is a substring of the input. *)
Definition caps_in (c : Re.caps) (s : jsstring) : Prop :=
  forall n g, Re.capture n c = Some g -> is_substring g s.

(** A successful run of the matcher hands the continuation a suffix of its
    input and captures that are substrings of the whole input [s0]. *)
Definition hands_over (s0 : jsstring) (k : Re.cont) (s : jsstring)
    (res : jsstring * Re.caps) : Prop :=
  exists prev' s' c',
    k prev' s' c' = Some res /\ is_suffix s' s /\ caps_in c' s0.

(** [k] is the first offset at or after [from] where [p] occurs in [s]. *)
Definition first_occurrence (s p : jsstring) (from k : nat) : Prop :=
  (from <= k)%nat /\ occurs_at p s k
  /\ forall j, (from <= j < k)%nat -> ~ occurs_at p s j.

(** Some character of [s] is not whitespace. *)
Definition has_nonspace (s : jsstring) : Prop :=
  exists c, In c s /\ is_ws c = false.

(** The offset at which [indexOf] starts for a position argument. *)
Definition search_start (text : jsstring) (position : Z) : nat :=
  Z.to_nat (Z.min (Z.max position 0) (len text)).

(** A range with its endpoints in order, as the first stage of
    [normalizeRanges] leaves it. *)
Definition order_endpoints (r : Range) : Range :=
  (Z.min (fst r) (snd r), Z.max (fst r) (snd r)).

(** Offset [x] lies in one of the ranges, read as half-open intervals (the
    reading of [slice]). *)
Definition covers (l : list Range) (x : Z) : Prop :=
  exists r, In r l /\ fst r <= x < snd r.

Definition Range_eq_dec (a b : Range) : {a = b} + {a <> b}.
Proof. decide equality; apply Z.eq_dec. Defined.

(** The ranges of [l] that occur neither in [seen] nor earlier in [l], in
    the order of [l]. *)
Fixpoint first_occurrences (seen l : list Range) : list Range :=
  match l with
  | [] => []
  | r :: l' =>
      if in_dec Range_eq_dec r seen
      then first_occurrences seen l'
      else r :: first_occurrences (seen ++ [r]) l'
  end.

(** The ranges that [highlightText] wraps: those whose slice of the text
    is not empty (line 153). *)
Definition is_highlighted (text : jsstring) (r : Range) : bool :=
  negb (List.length (slice text (fst r) (Some (snd r))) =? 0)%nat.

Definition highlighted_count (text : jsstring) (ranges : list Range) : Z :=
  Z.of_nat (List.length (filter (is_highlighted text) ranges)).

(** Neither the first nor the last character is whitespace. *)
Definition trimmed (s : jsstring) : Prop :=
  (forall c, hd_error s = Some c -> is_ws c = false)
  /\ (forall c, hd_error (List.rev s) = Some c -> is_ws c = false).

(** Every whitespace character is a space (code unit 32) and no two of
    them are adjacent; [after_space] tells that a space comes just
    before. *)
Fixpoint single_spaced (after_space : bool) (s : jsstring) : bool :=
  match s with
  | [] => true
  | c :: s' =>
      if is_ws c
      then (c =? 32)%N && negb after_space && single_spaced true s'
      else single_spaced false s'
  end.

(** The last character exists and is not whitespace. *)
Definition ends_nonspace (s : jsstring) : Prop :=
  exists s' c, s = s' ++ [c] /\ is_ws c = false.

(* ================================================================== *)
(** ** The range pipeline *)

Section SortFacts.
Variable A : Type.
Variable cmp : A -> A -> Z.
Variable P : A -> Prop.

Lemma insert_sorted_Forall x l :
  P x -> Forall P l -> Forall P (insert_sorted cmp x l).
Proof.
  intros Hx Hl. induction Hl as [|y l Hy Hl IH]; simpl.
  - constructor; [exact Hx | constructor].
  - destruct (cmp x y <=? 0); repeat constructor; assumption.
Qed.

Lemma array_sort_Forall l : Forall P l -> Forall P (array_sort cmp l).
Proof.
  induction 1 as [|x l Hx Hl IH]; simpl.
  - constructor.
  - now apply insert_sorted_Forall.
Qed.

Lemma array_sort_length l : List.length (array_sort cmp l) = List.length l.
Proof.
  assert (Hins : forall x l', List.length (insert_sorted cmp x l') = S (List.length l')).
  { intros x l'. induction l' as [|y l' IH]; simpl; [reflexivity|].
    destruct (cmp x y <=? 0); simpl; [reflexivity | now rewrite IH]. }
  induction l as [|x l IH]; simpl; [reflexivity|].
  now rewrite Hins, IH.
Qed.

(** Sorting a list that is in order already leaves it as it is. *)
Lemma array_sort_sorted l :
  Sorted (fun a b => cmp a b <= 0) l -> array_sort cmp l = l.
Proof.
  induction 1 as [|x l Hs IH Hhd]; simpl; [reflexivity|].
  rewrite IH. destruct Hhd as [|y l Hxy]; simpl; [reflexivity|].
  destruct (Z.leb_spec (cmp x y) 0); [reflexivity | lia].
Qed.
End SortFacts.

Lemma compareRanges_le a b : compareRanges a b <= 0 <-> range_le a b.
Proof.
  unfold compareRanges, range_le.
  destruct (Z.eqb_spec (fst a - fst b) 0); simpl; lia.
Qed.

Lemma normalizeRanges_ordered ranges : Forall ordered (normalizeRanges ranges).
Proof.
  unfold normalizeRanges. apply array_sort_Forall.
  induction ranges as [|[a b] l IH]; simpl; constructor; [|exact IH].
  unfold ordered; simpl; lia.
Qed.

Lemma normalizeRanges_length ranges :
  List.length (normalizeRanges ranges) = List.length ranges.
Proof.
  unfold normalizeRanges. now rewrite array_sort_length, length_map.
Qed.

(** *** The map behind [removeDuplicates] *)

Section MapFacts.
Variable V : Type.

Lemma key_eqb_eq a b : key_eqb a b = true <-> a = b.
Proof.
  unfold key_eqb. destruct (list_eq_dec N.eq_dec a b); split; congruence.
Qed.

Lemma Map_set_values (P : V -> Prop) k v (m : JsMap V) :
  P v -> Forall P (Map_values m) -> Forall P (Map_values (Map_set k v m)).
Proof.
  intros Hv. unfold Map_values. induction m as [|[k' v'] m IH]; simpl; intros Hm.
  - constructor; [exact Hv | constructor].
  - inversion Hm; subst. destruct (key_eqb k' k); simpl; constructor; auto.
Qed.

Lemma Map_set_nonempty k v (m : JsMap V) : Map_set k v m <> [].
Proof. destruct m as [|[k' v'] m]; simpl; [|destruct (key_eqb k' k)]; discriminate. Qed.

Lemma Map_set_fresh k v (m : JsMap V) :
  ~ In k (map fst m) -> Map_set k v m = m ++ [(k, v)].
Proof.
  induction m as [|[k' v'] m IH]; simpl; intros Hk; [reflexivity|].
  destruct (key_eqb k' k) eqn:E.
  - apply key_eqb_eq in E. tauto.
  - rewrite IH; [reflexivity | tauto].
Qed.

Lemma fold_Map_set_values (P : V -> Prop) entries (m : JsMap V) :
  Forall P (map snd entries) -> Forall P (Map_values m) ->
  Forall P (Map_values
              (fold_left (fun m kv => Map_set (fst kv) (snd kv) m) entries m)).
Proof.
  revert m. induction entries as [|[k v] es IH]; simpl; intros m He Hm; [exact Hm|].
  inversion He; subst. apply IH; [assumption|]. now apply Map_set_values.
Qed.

Lemma fold_Map_set_nonempty entries (m : JsMap V) :
  (entries <> [] \/ m <> []) ->
  fold_left (fun m kv => Map_set (fst kv) (snd kv) m) entries m <> [].
Proof.
  revert m. induction entries as [|[k v] es IH]; simpl; intros m H.
  - destruct H; congruence.
  - apply IH. right. apply Map_set_nonempty.
Qed.

Lemma fold_Map_set_fresh entries (m : JsMap V) :
  NoDup (map fst (m ++ entries)) ->
  fold_left (fun m kv => Map_set (fst kv) (snd kv) m) entries m = m ++ entries.
Proof.
  revert m. induction entries as [|[k v] es IH]; simpl; intros m H.
  - now rewrite app_nil_r.
  - assert (Hk : ~ In k (map fst m)).
    { rewrite map_app in H. simpl in H. apply NoDup_remove_2 in H.
      intros Hin. apply H, in_or_app. now left. }
    rewrite (Map_set_fresh _ _ _ Hk).
    rewrite IH; rewrite <- app_assoc; simpl; [reflexivity | exact H].
Qed.
End MapFacts.

Lemma removeDuplicates_Forall (P : Range -> Prop) ranges :
  Forall P ranges -> Forall P (removeDuplicates ranges).
Proof.
  intros H. unfold removeDuplicates, Map_new.
  apply fold_Map_set_values; [|constructor].
  rewrite map_map. simpl. now rewrite map_id.
Qed.

Lemma removeDuplicates_nonempty ranges :
  ranges <> [] -> removeDuplicates ranges <> [].
Proof.
  intros H. unfold removeDuplicates, Map_values, Map_new. intros E.
  apply map_eq_nil in E. revert E. apply fold_Map_set_nonempty.
  left. destruct ranges; [congruence | discriminate].
Qed.

(** *** [JSON.stringify] tells ranges apart *)

Lemma codes_inj s t : codes s = codes t -> s = t.
Proof.
  unfold codes. intros H.
  rewrite <- (string_of_list_ascii_of_string s),
          <- (string_of_list_ascii_of_string t).
  f_equal. revert H.
  generalize (list_ascii_of_string s) (list_ascii_of_string t).
  induction l as [|a l IH]; intros [|b l'] H; simpl in H; try discriminate;
    [reflexivity|].
  injection H as Hab Hl. f_equal; [|now apply IH].
  rewrite <- (ascii_N_embedding a), <- (ascii_N_embedding b). now rewrite Hab.
Qed.

Lemma number_to_string_inj a b :
  number_to_string a = number_to_string b -> a = b.
Proof.
  unfold number_to_string. intros H. apply codes_inj in H.
  assert (Hn : forall z, Z.to_int z <> Decimal.Pos Decimal.Nil
                         /\ Z.to_int z <> Decimal.Neg Decimal.Nil).
  { intros [|p|p]; simpl; split; try discriminate;
      intros E; injection E; apply DecimalPos.Unsigned.to_uint_nonnil. }
  assert (E : Some (Z.to_int a) = Some (Z.to_int b)).
  { rewrite <- (DecimalString.NilZero.isi (Z.to_int a)) by apply Hn.
    rewrite <- (DecimalString.NilZero.isi (Z.to_int b)) by apply Hn.
    now rewrite H. }
  injection E as E.
  rewrite <- (DecimalZ.of_to a), <- (DecimalZ.of_to b). now rewrite E.
Qed.

(** No decimal numeral contains a comma (code unit 44). *)
Lemma number_to_string_no_comma z : ~ In 44%N (number_to_string z).
Proof.
  assert (Hu : forall d, ~ In 44%N (codes (DecimalString.NilEmpty.string_of_uint d))).
  { induction d; unfold codes in *; simpl; intros H;
      [exact H | destruct H as [E|E]; [discriminate | auto] ..]. }
  assert (Hz : forall d, ~ In 44%N (codes (DecimalString.NilZero.string_of_uint d))).
  { intros d. destruct d; try apply Hu.
    unfold codes; simpl. intros [E|[]]; discriminate. }
  unfold number_to_string. destruct (Z.to_int z) as [d|d]; simpl.
  - apply Hz.
  - unfold codes in *. simpl. intros [E|E]; [discriminate | now apply (Hz d)].
Qed.

Lemma split_at_fresh (c : char) x y x' y' :
  ~ In c x -> ~ In c x' -> x ++ c :: y = x' ++ c :: y' -> x = x' /\ y = y'.
Proof.
  revert x'. induction x as [|a x IH]; intros [|a' x'] Hx Hx' E; simpl in *.
  - injection E as E. now split.
  - injection E as E1 E2. subst. tauto.
  - injection E as E1 E2. subst. tauto.
  - injection E as E1 E2. subst.
    destruct (IH x') as [-> ->]; auto.
Qed.

Lemma JSON_stringify_inj r r' : JSON_stringify r = JSON_stringify r' -> r = r'.
Proof.
  destruct r as [a b], r' as [a' b']. unfold JSON_stringify. simpl fst; simpl snd.
  change (codes "[") with [91%N]. change (codes ",") with [44%N].
  change (codes "]") with [93%N]. simpl. intros E. injection E as E.
  apply split_at_fresh in E; try apply number_to_string_no_comma.
  destruct E as [Ea Eb]. apply app_inv_tail in Eb.
  apply number_to_string_inj in Ea, Eb. now subst.
Qed.

(** Without duplicates there is nothing to remove. *)
Lemma removeDuplicates_NoDup ranges :
  NoDup ranges -> removeDuplicates ranges = ranges.
Proof.
  intros H. unfold removeDuplicates, Map_new.
  rewrite fold_Map_set_fresh; simpl.
  - unfold Map_values. rewrite map_map. simpl. apply map_id.
  - rewrite map_map. simpl.
    induction H as [|r l Hr Hl IH]; simpl; constructor; [|exact IH].
    rewrite in_map_iff. intros [r' [E Hin]].
    apply JSON_stringify_inj in E. now subst.
Qed.

(** *** Merging *)

Lemma mergeStep_snoc done ls le s e :
  mergeStep (done ++ [(ls, le)]) (s, e) =
  if s <=? le then done ++ [(ls, Z.max le e)]
  else (done ++ [(ls, le)]) ++ [(s, e)].
Proof.
  unfold mergeStep.
  destruct (done ++ [(ls, le)]) eqn:E; [now destruct done|].
  rewrite <- E, last_last, removelast_last. reflexivity.
Qed.

Lemma fold_mergeStep done cur l :
  fold_left mergeStep l (done ++ [cur]) = done ++ merge_from cur l.
Proof.
  revert done cur. induction l as [|[s e] l IH]; intros done [ls le];
    [reflexivity|].
  cbn [fold_left merge_from snd fst]. rewrite mergeStep_snoc.
  destruct (s <=? le).
  - apply IH.
  - rewrite IH, <- app_assoc. reflexivity.
Qed.

Lemma mergeRanges_cons r l : mergeRanges (r :: l) = merge_from r l.
Proof.
  unfold mergeRanges. destruct r as [s e]. simpl.
  apply (fold_mergeStep [] (s, e) l).
Qed.

Lemma merge_from_nonempty cur l : merge_from cur l <> [].
Proof.
  revert cur. induction l as [|[s e] l IH]; intros cur; simpl; [discriminate|].
  destruct (s <=? snd cur); [apply IH | discriminate].
Qed.

(** The head of the merge starts where the running range starts. *)
Lemma merge_from_head cur l :
  exists e' rest, merge_from cur l = (fst cur, e') :: rest /\ snd cur <= e'.
Proof.
  revert cur. induction l as [|[s e] l IH]; intros [ls le]; simpl.
  - exists le, []. split; [reflexivity | lia].
  - destruct (s <=? le).
    + destruct (IH (ls, Z.max le e)) as [e' [rest [-> H]]]. simpl in *.
      exists e', rest. split; [reflexivity | lia].
    + exists le, (merge_from (s, e) l). split; [reflexivity | lia].
Qed.

Lemma merge_from_ordered cur l :
  ordered cur -> Forall ordered l -> Forall ordered (merge_from cur l).
Proof.
  intros Hc Hl. revert cur Hc.
  induction Hl as [|[s e] l Hse Hl IH]; intros [ls le] Hc; simpl.
  - constructor; [exact Hc | constructor].
  - unfold ordered in *; simpl in *. destruct (s <=? le).
    + apply IH. simpl. lia.
    + constructor; [exact Hc | now apply IH].
Qed.

Lemma merge_from_apart cur l :
  Forall ordered l -> Sorted apart (merge_from cur l).
Proof.
  intros Hl. revert cur.
  induction Hl as [|[s e] l Hse Hl IH]; intros [ls le]; simpl.
  - repeat constructor.
  - destruct (Z.leb_spec s le).
    + apply IH.
    + constructor; [apply IH|].
      destruct (merge_from_head (s, e) l) as [e' [rest [-> _]]].
      constructor. unfold apart; simpl. lia.
Qed.

(** Ranges that lie apart already are left as they are. *)
Lemma merge_from_fixed cur l :
  Sorted apart (cur :: l) -> Forall ordered (cur :: l) ->
  merge_from cur l = cur :: l.
Proof.
  revert cur. induction l as [|[s e] l IH]; intros [ls le] Hs Ho; simpl;
    [reflexivity|].
  inversion Hs as [|? ? Hs' Hhd]; subst. inversion Hhd as [|? ? Hap]; subst.
  inversion Ho as [|? ? _ Ho']; subst.
  unfold apart in Hap; simpl in Hap.
  destruct (Z.leb_spec s le); [lia|].
  f_equal. now apply IH.
Qed.

(** *** What lying apart implies *)

Lemma apart_strongly l :
  Forall ordered l -> Sorted apart l -> StronglySorted apart l.
Proof.
  intros Ho Hs. induction Hs as [|x l Hs IH Hhd]; [constructor|].
  inversion Ho as [|? ? Hx Hl]; subst. specialize (IH Hl).
  constructor; [exact IH|].
  destruct Hhd as [|y l Hxy]; [constructor|].
  inversion IH as [|? ? _ Hall]; subst. inversion Hl as [|? ? Hy _]; subst.
  constructor; [exact Hxy|].
  eapply Forall_impl; [|exact Hall].
  intros z Hyz. unfold apart, ordered in *. lia.
Qed.

Lemma apart_range_le l :
  Forall ordered l -> StronglySorted apart l -> StronglySorted range_le l.
Proof.
  intros Ho Hs. induction Hs as [|x l Hs IH Hall]; [constructor|].
  inversion Ho as [|? ? Hx Hl]; subst.
  constructor; [now apply IH|].
  eapply Forall_impl; [|exact Hall].
  intros y Hxy. unfold range_le, apart, ordered in *. lia.
Qed.

Lemma apart_NoDup l :
  Forall ordered l -> StronglySorted apart l -> NoDup l.
Proof.
  intros Ho Hs. induction Hs as [|x l Hs IH Hall]; [constructor|].
  inversion Ho as [|? ? Hx Hl]; subst.
  constructor; [|now apply IH].
  intros Hin. rewrite Forall_forall in Hall. specialize (Hall x Hin).
  unfold apart, ordered in *. lia.
Qed.

Lemma apart_consecutive l : Sorted apart l -> consecutive_apart l.
Proof.
  intros Hs i. revert l Hs.
  induction i as [|i IH]; intros [|a l] Hs s1 e1 s2 e2 H1 H2;
    try discriminate.
  - destruct l as [|b l]; [discriminate|].
    injection H1 as ->. injection H2 as ->.
    inversion Hs as [|? ? _ Hhd]; subst. inversion Hhd; subst.
    unfold apart in *; simpl in *. lia.
  - inversion Hs; subst. exact (IH l ltac:(assumption) _ _ _ _ H1 H2).
Qed.

Lemma apart_sorted_by_comparator l :
  Forall ordered l -> Sorted apart l ->
  Sorted (fun a b => compareRanges a b <= 0) l.
Proof.
  intros Ho Hs. induction Hs as [|x l Hs IH Hhd]; [constructor|].
  inversion Ho as [|? ? Hx Hl]; subst.
  constructor; [now apply IH|].
  destruct Hhd as [|y l Hxy]; constructor.
  apply compareRanges_le. unfold range_le, apart, ordered in *. lia.
Qed.

Lemma processRanges_unfold ranges :
  processRanges ranges = mergeRanges (removeDuplicates (normalizeRanges ranges)).
Proof. reflexivity. Qed.

Lemma processRanges_invariant ranges :
  Forall ordered (processRanges ranges) /\ Sorted apart (processRanges ranges).
Proof.
  rewrite processRanges_unfold.
  pose proof (removeDuplicates_Forall ordered _ (normalizeRanges_ordered ranges)) as H.
  destruct (removeDuplicates (normalizeRanges ranges)) as [|r l].
  - split; constructor.
  - rewrite mergeRanges_cons. inversion H; subst.
    split; [now apply merge_from_ordered | now apply merge_from_apart].
Qed.

Lemma processRanges_nonempty ranges : ranges <> [] -> processRanges ranges <> [].
Proof.
  intros H. rewrite processRanges_unfold.
  assert (Hn : normalizeRanges ranges <> []).
  { intros E. apply (f_equal (@List.length Range)) in E.
    rewrite normalizeRanges_length in E. destruct ranges; [congruence | discriminate]. }
  apply removeDuplicates_nonempty in Hn.
  destruct (removeDuplicates (normalizeRanges ranges)) as [|r l]; [congruence|].
  rewrite mergeRanges_cons. apply merge_from_nonempty.
Qed.

(** A list that satisfies the invariant is a fixed point of the pipeline. *)
Lemma processRanges_fixed l :
  Forall ordered l -> Sorted apart l -> processRanges l = l.
Proof.
  intros Ho Hs. rewrite processRanges_unfold.
  assert (Hn : normalizeRanges l = l).
  { unfold normalizeRanges.
    assert (Hm : map (fun '(a, b) => (Z.min a b, Z.max a b)) l = l).
    { clear Hs. induction Ho as [|[a b] l Hab Hl IH]; simpl; [reflexivity|].
      unfold ordered in Hab; simpl in Hab.
      rewrite IH, Z.min_l, Z.max_r by lia. reflexivity. }
    rewrite Hm. apply array_sort_sorted. now apply apart_sorted_by_comparator. }
  rewrite Hn, removeDuplicates_NoDup.
  - destruct l as [|r l]; [reflexivity|].
    rewrite mergeRanges_cons. now apply merge_from_fixed.
  - apply apart_NoDup; [exact Ho | now apply apart_strongly].
Qed.

(** C1. For every list of integer pairs, the result of the normalisation
    pipeline (order endpoints, sort, deduplicate, merge) has [start <= end]
    in every pair, is sorted ascending by start and then by end, contains
    no pair twice, and any two consecutive results [(s1,e1)], [(s2,e2)]
    satisfy [s2 > e1]: the ranges neither overlap nor touch. *)
Theorem normalization_invariant (ranges : list Range) :
  Forall ordered (processRanges ranges)
  /\ StronglySorted range_le (processRanges ranges)
  /\ NoDup (processRanges ranges)
  /\ consecutive_apart (processRanges ranges).
Proof.
  destruct (processRanges_invariant ranges) as [Ho Hs].
  pose proof (apart_strongly _ Ho Hs) as Hss.
  repeat split.
  - exact Ho.
  - now apply apart_range_le.
  - now apply apart_NoDup.
  - now apply apart_consecutive.
Qed.

(** C9. The normalisation pipeline is idempotent: applied to its own
    output it returns that output. *)
Theorem normalization_idempotent (ranges : list Range) :
  processRanges (processRanges ranges) = processRanges ranges.
Proof.
  destruct (processRanges_invariant ranges) as [Ho Hs].
  now apply processRanges_fixed.
Qed.

(* ================================================================== *)
(** ** The facade *)

Lemma fixupFirstEnd_cons textLength escapedLength start0 end0 rest :
  fixupFirstEnd textLength escapedLength ((start0, end0) :: rest) =
  Some ((start0, if end0 =? textLength then escapedLength else end0) :: rest).
Proof. unfold fixupFirstEnd. now destruct (end0 =? textLength). Qed.

Lemma highlightTextRanges_nonempty text ranges createExcerpt :
  text <> [] -> ranges <> [] ->
  exists start0 end0 rest,
    processRanges ranges = (start0, end0) :: rest /\
    highlightTextRanges text ranges createExcerpt =
      Return (dispatch createExcerpt (trim (escapeHtml text))
                ((start0,
                  if end0 =? len text
                  then len (trim (escapeHtml text)) else end0) :: rest)).
Proof.
  intros Ht Hr. pose proof (processRanges_nonempty ranges Hr) as Hp.
  destruct (processRanges ranges) as [|[start0 end0] rest] eqn:E; [congruence|].
  exists start0, end0, rest. split; [reflexivity|].
  unfold highlightTextRanges.
  destruct text; [congruence|]. destruct ranges; [congruence|].
  cbn [truthy negb List.length Nat.eqb].
  rewrite E, fixupFirstEnd_cons. reflexivity.
Qed.

(** C3. The facade throws exactly when the text is empty or the range list
    is empty: the empty-text error is raised first, whatever the ranges;
    on a non-empty text and a non-empty range list, whatever the ranges
    hold, it returns a string. *)
Theorem facade_throws_iff_empty (text : jsstring) (ranges : list Range)
    (createExcerpt : bool) :
  (throws (highlightTextRanges text ranges createExcerpt)
     <-> text = [] \/ ranges = [])
  /\ match text, ranges with
     | [], _ =>
         highlightTextRanges text ranges createExcerpt
         = Throw (Error "No text provided to highlight")
     | _ :: _, [] =>
         highlightTextRanges text ranges createExcerpt
         = Throw (Error "No ranges provided for highlighting")
     | _ :: _, _ :: _ =>
         returns (highlightTextRanges text ranges createExcerpt)
     end.
Proof.
  assert (Hret : text <> [] -> ranges <> [] ->
                 returns (highlightTextRanges text ranges createExcerpt)).
  { intros Ht Hr.
    destruct (highlightTextRanges_nonempty text ranges createExcerpt Ht Hr)
      as [s0 [e0 [rest [_ E]]]].
    eexists. exact E. }
  split.
  - split.
    + intros [e He]. destruct text as [|c text]; [now left|].
      destruct ranges as [|r ranges]; [now right|].
      destruct Hret as [v Hv]; try discriminate. congruence.
    + intros [-> | ->].
      * eexists. reflexivity.
      * destruct text; eexists; reflexivity.
  - destruct text as [|c text]; [reflexivity|].
    destruct ranges as [|r ranges]; [reflexivity|].
    apply Hret; discriminate.
Qed.

(** C4. In excerpt mode the text of the test suite with the ranges
    [[6,11]] and [[35,38]] yields exactly the excerpt the test expects. *)
Theorem excerpt_scenario :
  highlightTextRanges
    (codes "Hello world! This is a sample text for testing purposes.")
    [(6, 11); (35, 38)] true
  = Return (codes "Hello <em>world</em>! [...] text <em>for</em> testing [...]").
Proof. vm_compute. reflexivity. Qed.

(** C5. After normalisation the facade rewrites the end of the first
    processed range to the length of the escaped (and trimmed) text when
    that end equals the length of the original text; the start of that
    range and every other range reach the highlighter unchanged. *)
Theorem facade_boundary_fixup (text : jsstring) (ranges : list Range)
    (createExcerpt : bool) :
  text <> [] -> ranges <> [] ->
  exists start0 end0 rest,
    processRanges ranges = (start0, end0) :: rest /\
    highlightTextRanges text ranges createExcerpt =
      Return (dispatch createExcerpt (trim (escapeHtml text))
                ((start0,
                  if end0 =? len text
                  then len (trim (escapeHtml text)) else end0) :: rest)).
Proof. apply highlightTextRanges_nonempty. Qed.

Lemma facade_boundary_fixup_witness :
  exists start0 end0 rest,
    processRanges [(0, 3); (9, 7)] = (start0, end0) :: rest /\
    highlightTextRanges (codes "<b>") [(0, 3); (9, 7)] false =
      Return (dispatch false (trim (escapeHtml (codes "<b>")))
                ((start0,
                  if end0 =? len (codes "<b>")
                  then len (trim (escapeHtml (codes "<b>"))) else end0) :: rest)).
Proof.
  apply (facade_boundary_fixup (codes "<b>") [(0, 3); (9, 7)] false);
    discriminate.
Defined.

(* ================================================================== *)
(** ** The escaper *)

(** A global replace over a one-character class rewrites the string
    character by character. *)
Lemma replace_all_class p f prev s :
  Re.replace_all_from (Re.Cls p) f prev s 0 =
  flat_map (fun c => if p c then f [c] else [c]) s.
Proof.
  revert prev. induction s as [|a s IH]; intros prev; [reflexivity|].
  cbn [Re.replace_all_from flat_map]. unfold Re.match_at. cbn [Re.run].
  destruct (p a).
  - replace (List.length (a :: s) - List.length s)%nat with 1%nat
      by (cbn [List.length]; lia).
    cbn [firstn List.length]. rewrite IH. reflexivity.
  - rewrite IH. reflexivity.
Qed.

Lemma escapeHtml_char c :
  (if is_html_special c
   then to_string (get_property htmlEscapes [c]) else [c])
  = spec_escape_char c.
Proof.
  unfold spec_escape_char, is_html_special.
  destruct (N.eqb_spec c 38); [subst; reflexivity|].
  destruct (N.eqb_spec c 60); [subst; reflexivity|].
  destruct (N.eqb_spec c 62); [subst; reflexivity|].
  destruct (N.eqb_spec c 34); [subst; reflexivity|].
  destruct (N.eqb_spec c 39); [subst; reflexivity|].
  reflexivity.
Qed.

Lemma escapeHtml_flat_map s : escapeHtml s = flat_map spec_escape_char s.
Proof.
  unfold escapeHtml, Re.replace_all. rewrite replace_all_class.
  apply flat_map_ext. intros a. apply escapeHtml_char.
Qed.

(** What replaces one character: an entity, or the character itself when
    it is not special. *)
Lemma spec_escape_char_cases c :
  (In (spec_escape_char c) spec_entities /\ is_html_special c = true)
  \/ (spec_escape_char c = [c] /\ is_html_special c = false).
Proof.
  unfold spec_escape_char, is_html_special, spec_entities.
  destruct (N.eqb_spec c 38); [left; simpl; tauto|].
  destruct (N.eqb_spec c 60); [left; simpl; tauto|].
  destruct (N.eqb_spec c 62); [left; simpl; tauto|].
  destruct (N.eqb_spec c 34); [left; simpl; tauto|].
  destruct (N.eqb_spec c 39); [left; simpl; tauto|].
  right. split; reflexivity.
Qed.

Lemma entity_special_first e i c :
  In e spec_entities -> nth_error e i = Some c -> is_html_special c = true ->
  i = 0%nat.
Proof.
  intros He Hn Hc. destruct i as [|i]; [reflexivity|]. exfalso.
  assert (Hall : Forall (fun e' => forallb (fun c' => negb (is_html_special c'))
                                     (tl e') = true) spec_entities)
    by (repeat constructor).
  rewrite Forall_forall in Hall. specialize (Hall e He).
  rewrite forallb_forall in Hall.
  destruct e as [|c0 e]; [discriminate|].
  cbn [nth_error tl] in Hn, Hall.
  apply nth_error_In in Hn. specialize (Hall c Hn).
  rewrite Hc in Hall. discriminate.
Qed.

Lemma occurs_at_shift e pre out j :
  occurs_at e out j -> occurs_at e (pre ++ out) (List.length pre + j).
Proof.
  unfold occurs_at. intros H.
  rewrite skipn_app, skipn_all2 by lia.
  replace (List.length pre + j - List.length pre)%nat with j by lia.
  exact H.
Qed.

Lemma flat_map_special_only_in_entities s :
  special_only_in_entities (flat_map spec_escape_char s).
Proof.
  induction s as [|a s IH]; intros i c Hn Hc.
  - destruct i; discriminate.
  - cbn [flat_map] in *.
    destruct (Nat.lt_ge_cases i (List.length (spec_escape_char a))) as [Hlt|Hge].
    + rewrite nth_error_app1 in Hn by exact Hlt.
      destruct (spec_escape_char_cases a) as [[He _]|[He Ha]].
      * pose proof (entity_special_first _ _ _ He Hn Hc) as ->.
        exists (spec_escape_char a), 0%nat. repeat split; [exact He| |lia|exact Hlt].
        unfold occurs_at. cbn [skipn].
        rewrite firstn_app, Nat.sub_diag, firstn_all. cbn [firstn].
        apply app_nil_r.
      * rewrite He in Hn, Hlt. destruct i; [|simpl in Hlt; lia].
        injection Hn as <-. congruence.
    + rewrite nth_error_app2 in Hn by exact Hge.
      destruct (IH _ _ Hn Hc) as [e [j [He [Ho Hij]]]].
      exists e, (List.length (spec_escape_char a) + j)%nat.
      repeat split; [exact He | now apply occurs_at_shift | lia | lia].
Qed.

(** C2. The escaper replaces each occurrence of the five special
    characters by its entity and keeps every other character; hence a
    special character in the output always lies inside an occurrence of
    one of the five entities. *)
Theorem escapeHtml_correct (text : jsstring) :
  escapeHtml text = flat_map spec_escape_char text
  /\ special_only_in_entities (escapeHtml text).
Proof.
  split; [apply escapeHtml_flat_map|].
  rewrite escapeHtml_flat_map. apply flat_map_special_only_in_entities.
Qed.

(* ================================================================== *)
(** ** Slices *)

Lemma len_nonneg s : 0 <= len s.
Proof. unfold len. lia. Qed.

Lemma rel_index_bounds n k : 0 <= n -> 0 <= rel_index n k <= n.
Proof. unfold rel_index. destruct (Z.ltb_spec k 0); lia. Qed.

Lemma rel_index_inside n k : 0 <= k <= n -> rel_index n k = k.
Proof. unfold rel_index. destruct (Z.ltb_spec k 0); lia. Qed.

Lemma slice_length s x y :
  List.length (slice s x (Some y))
  = Z.to_nat (rel_index (len s) y - rel_index (len s) x).
Proof.
  unfold slice. rewrite length_firstn, length_skipn.
  pose proof (rel_index_bounds (len s) x (len_nonneg s)).
  pose proof (rel_index_bounds (len s) y (len_nonneg s)).
  unfold len in *. lia.
Qed.

Lemma slice_length_to_end s x :
  List.length (slice s x None) = Z.to_nat (len s - rel_index (len s) x).
Proof.
  unfold slice. rewrite length_firstn, length_skipn.
  pose proof (rel_index_bounds (len s) x (len_nonneg s)).
  unfold len in *. lia.
Qed.

Lemma slice_inside s x y :
  0 <= x <= len s -> 0 <= y <= len s ->
  slice s x (Some y) = firstn (Z.to_nat (y - x)) (skipn (Z.to_nat x) s).
Proof. intros Hx Hy. unfold slice. now rewrite !rel_index_inside. Qed.

Lemma slice_to_end_inside s x :
  0 <= x <= len s -> slice s x None = skipn (Z.to_nat x) s.
Proof.
  intros Hx. unfold slice. rewrite rel_index_inside by exact Hx.
  apply firstn_all2. rewrite length_skipn. unfold len in *. lia.
Qed.

Lemma In_firstn (c : char) n s : In c (firstn n s) -> In c s.
Proof.
  intros H. rewrite <- (firstn_skipn n s). apply in_or_app. now left.
Qed.

Lemma In_skipn (c : char) n s : In c (skipn n s) -> In c s.
Proof.
  intros H. rewrite <- (firstn_skipn n s). apply in_or_app. now right.
Qed.

Lemma slice_In s x y c : In c (slice s x y) -> In c s.
Proof.
  unfold slice. intros H. apply In_firstn in H. now apply In_skipn in H.
Qed.

Lemma firstn_skipn_join {A} (s : list A) (a b : nat) :
  (a <= b)%nat -> firstn (b - a) (skipn a s) ++ skipn b s = skipn a s.
Proof.
  intros H. replace (skipn b s) with (skipn (b - a) (skipn a s)).
  - apply firstn_skipn.
  - rewrite skipn_skipn. f_equal. lia.
Qed.

(* ================================================================== *)
(** ** The full-text highlighter *)

Lemma fold_highlightStep text ranges result lastIndex :
  (let '(result', lastIndex') :=
     fold_left (highlightStep text) ranges (result, lastIndex) in
   result' ++ slice text lastIndex' None)
  = result ++ highlight_from text lastIndex ranges.
Proof.
  revert result lastIndex.
  induction ranges as [|[s e] rest IH]; intros result lastIndex;
    [reflexivity|].
  cbn [fold_left highlight_from]. unfold highlightStep at 2.
  destruct (List.length (slice text s (Some e)) =? 0)%nat.
  - apply IH.
  - rewrite IH, <- !app_assoc. reflexivity.
Qed.

Lemma highlightText_past_guard text ranges :
  text <> [] -> ranges <> [] ->
  highlightText text ranges = highlight_from text 0 ranges.
Proof.
  intros Ht Hr. unfold highlightText.
  destruct text as [|c text]; [congruence|].
  destruct ranges as [|r ranges]; [congruence|].
  cbn [truthy negb orb List.length Nat.eqb].
  exact (fold_highlightStep (c :: text) (r :: ranges) [] 0).
Qed.

(** Nothing of the text after the cursor is lost. *)
Lemma highlight_from_length text lastIndex ranges :
  len text - rel_index (len text) lastIndex
  <= len (highlight_from text lastIndex ranges).
Proof.
  revert lastIndex. induction ranges as [|[s e] rest IH]; intros lastIndex.
  - cbn [highlight_from]. unfold len at 3. rewrite slice_length_to_end.
    pose proof (rel_index_bounds (len text) lastIndex (len_nonneg text)). lia.
  - cbn [highlight_from].
    destruct (Nat.eqb_spec (List.length (slice text s (Some e))) 0) as [E|E];
      [apply IH|].
    specialize (IH e). unfold len at 3. unfold len at 3 in IH.
    rewrite !length_app, !slice_length.
    rewrite slice_length in E.
    pose proof (rel_index_bounds (len text) lastIndex (len_nonneg text)).
    pose proof (rel_index_bounds (len text) s (len_nonneg text)).
    pose proof (rel_index_bounds (len text) e (len_nonneg text)).
    lia.
Qed.

Lemma highlightText_length text ranges :
  ranges <> [] -> len text <= len (highlightText text ranges).
Proof.
  intros Hr. destruct text as [|c text]; [apply len_nonneg|].
  rewrite highlightText_past_guard by (assumption || discriminate).
  pose proof (highlight_from_length (c :: text) 0 ranges) as H.
  rewrite rel_index_inside in H by (pose proof (len_nonneg (c :: text)); lia).
  lia.
Qed.

(** *** Trimming and escaping *)

Section DropWhileFlatMap.
Variable h : char -> jsstring.
Hypothesis h_ws : forall c, is_ws c = true -> h c = [c].
Hypothesis h_other :
  forall c, is_ws c = false -> exists a t, h c = a :: t /\ is_ws a = false.

Lemma dropWhile_flat_map s :
  dropWhile is_ws (flat_map h s) = flat_map h (dropWhile is_ws s).
Proof.
  induction s as [|c s IH]; [reflexivity|].
  cbn [flat_map dropWhile]. destruct (is_ws c) eqn:E.
  - rewrite (h_ws c E). cbn [app dropWhile]. now rewrite E.
  - destruct (h_other c E) as [a [t [Hh Ha]]].
    cbn [flat_map]. rewrite Hh. cbn [app dropWhile]. now rewrite Ha.
Qed.
End DropWhileFlatMap.

Lemma spec_escape_char_ws c : is_ws c = true -> spec_escape_char c = [c].
Proof.
  intros H. unfold spec_escape_char.
  destruct (N.eqb_spec c 38); [subst; discriminate|].
  destruct (N.eqb_spec c 60); [subst; discriminate|].
  destruct (N.eqb_spec c 62); [subst; discriminate|].
  destruct (N.eqb_spec c 34); [subst; discriminate|].
  destruct (N.eqb_spec c 39); [subst; discriminate|].
  reflexivity.
Qed.

Lemma spec_escape_char_ends c :
  is_ws c = false ->
  (exists a t, spec_escape_char c = a :: t /\ is_ws a = false)
  /\ (exists a t, List.rev (spec_escape_char c) = a :: t /\ is_ws a = false).
Proof.
  intros H. unfold spec_escape_char.
  destruct (N.eqb_spec c 38); [split; eexists _, _; split; reflexivity|].
  destruct (N.eqb_spec c 60); [split; eexists _, _; split; reflexivity|].
  destruct (N.eqb_spec c 62); [split; eexists _, _; split; reflexivity|].
  destruct (N.eqb_spec c 34); [split; eexists _, _; split; reflexivity|].
  destruct (N.eqb_spec c 39); [split; eexists _, _; split; reflexivity|].
  split; exists c, []; split; (reflexivity || exact H).
Qed.

Lemma rev_flat_map (h : char -> jsstring) s :
  List.rev (flat_map h s) = flat_map (fun c => List.rev (h c)) (List.rev s).
Proof.
  induction s as [|c s IH]; [reflexivity|].
  cbn [flat_map List.rev]. rewrite rev_app_distr, IH, flat_map_app.
  cbn [flat_map]. now rewrite app_nil_r.
Qed.

(** Whitespace is not special, so trimming commutes with escaping. *)
Lemma trim_escapeHtml s : trim (escapeHtml s) = escapeHtml (trim s).
Proof.
  rewrite !escapeHtml_flat_map. unfold trim, trimStart, trimEnd.
  rewrite (dropWhile_flat_map spec_escape_char spec_escape_char_ws
             (fun c H => proj1 (spec_escape_char_ends c H))).
  generalize (dropWhile is_ws s). intros t.
  rewrite rev_flat_map.
  rewrite (dropWhile_flat_map (fun c => List.rev (spec_escape_char c))).
  - rewrite rev_flat_map.
    apply flat_map_ext. intros c. apply rev_involutive.
  - intros c H. now rewrite spec_escape_char_ws.
  - intros c H. exact (proj2 (spec_escape_char_ends c H)).
Qed.

Lemma escapeHtml_length s : len s <= len (escapeHtml s).
Proof.
  rewrite escapeHtml_flat_map. unfold len.
  induction s as [|c s IH]; [reflexivity|].
  cbn [flat_map]. rewrite length_app. cbn [List.length].
  assert (1 <= List.length (spec_escape_char c))%nat; [|lia].
  destruct (spec_escape_char_cases c) as [[He _]|[-> _]]; [|simpl; lia].
  unfold spec_entities in He.
  repeat (destruct He as [<- | He]; [vm_compute; lia|]). destruct He.
Qed.

(** C6, as amended. For every non-empty text and non-empty range list the
    facade with [createExcerpt = false] returns a string at least as long
    as the text with its leading and trailing whitespace removed. *)
Theorem facade_output_length (text : jsstring) (ranges : list Range) :
  text <> [] -> ranges <> [] ->
  exists out,
    highlightTextRanges text ranges false = Return out
    /\ len (trim text) <= len out.
Proof.
  intros Ht Hr.
  destruct (highlightTextRanges_nonempty text ranges false Ht Hr)
    as [s0 [e0 [rest [_ E]]]].
  eexists. split; [exact E|].
  unfold dispatch. rewrite trim_escapeHtml.
  etransitivity; [apply escapeHtml_length|].
  apply highlightText_length. discriminate.
Qed.

Lemma facade_output_length_witness :
  exists out,
    highlightTextRanges (codes " a<b ") [(1, 2); (9, 4)] false = Return out
    /\ len (trim (codes " a<b ")) <= len out.
Proof.
  apply (facade_output_length (codes " a<b ") [(1, 2); (9, 4)]); discriminate.
Defined.

(** C6, as stated, fails: the facade trims the escaped text, so the output
    can be shorter than the input text. *)
Lemma facade_output_shorter :
  highlightTextRanges (codes " a ") [(1, 2)] false = Return (codes "a")
  /\ len (codes "a") < len (codes " a ").
Proof. split; vm_compute; reflexivity. Qed.

(** *** Deleting the markers *)

(** A character does not occur in a literal. *)
Ltac not_in_literal :=
  let H := fresh in
  intros H; vm_compute in H;
  repeat (destruct H as [H | H]; [discriminate|]); exact H.

Lemma strip_markers_text pre s :
  ~ In 60%N pre ->
  strip_markers_from 0 (pre ++ s) = pre ++ strip_markers_from 0 s.
Proof.
  induction pre as [|c pre IH]; intros H; [reflexivity|].
  assert (Hc : (60 =? c)%N = false).
  { apply N.eqb_neq. intros E. apply H. now left. }
  change ((c :: pre) ++ s) with (c :: (pre ++ s)).
  cbn [strip_markers_from].
  change (codes "<em>") with [60; 101; 109; 62]%N.
  change (codes "</em>") with [60; 47; 101; 109; 62]%N.
  cbn [starts_with]. rewrite Hc. cbn [andb app].
  f_equal. apply IH. intros Hin. apply H. now right.
Qed.

Lemma strip_markers_open s :
  strip_markers_from 0 (codes "<em>" ++ s) = strip_markers_from 0 s.
Proof. reflexivity. Qed.

Lemma strip_markers_close s :
  strip_markers_from 0 (codes "</em>" ++ s) = strip_markers_from 0 s.
Proof. reflexivity. Qed.

Lemma strip_markers_plain s : ~ In 60%N s -> strip_markers s = s.
Proof.
  intros H. unfold strip_markers.
  rewrite <- (app_nil_r s) at 1. rewrite strip_markers_text by exact H.
  apply app_nil_r.
Qed.

(** The round trip from a cursor onwards: the ranges that are not empty
    start at or after the cursor. *)
Lemma strip_highlight_from text ranges cursor :
  ~ In 60%N text ->
  0 <= cursor <= len text ->
  Forall (fun r => 0 <= fst r /\ fst r <= snd r /\ snd r <= len text) ranges ->
  StronglySorted starts_ascending ranges ->
  ForallOrdPairs disjoint ranges ->
  Forall (fun r => fst r < snd r -> cursor <= fst r) ranges ->
  strip_markers (highlight_from text cursor ranges)
  = skipn (Z.to_nat cursor) text.
Proof.
  intros Hlt. revert cursor.
  induction ranges as [|[s e] rest IH]; intros cursor Hc Hin Hs Hd Hcur.
  - cbn [highlight_from]. rewrite slice_to_end_inside by exact Hc.
    apply strip_markers_plain. intros H. now apply In_skipn in H.
  - cbn [highlight_from].
    inversion Hin as [|? ? [Hs0 [Hse Hen]] Hin']; subst.
    inversion Hs as [|? ? Hs' Hle]; subst.
    inversion Hd as [|? ? Hdis Hd']; subst.
    inversion Hcur as [|? ? Hcs Hcur']; subst.
    cbn [fst snd] in *.
    rewrite slice_length, !rel_index_inside by lia.
    destruct (Nat.eqb_spec (Z.to_nat (e - s)) 0) as [E|E].
    + now apply IH.
    + assert (Hlt' : s < e) by lia. specialize (Hcs Hlt').
      unfold strip_markers.
      rewrite strip_markers_text
        by (intros H; now apply slice_In in H).
      rewrite strip_markers_open.
      rewrite strip_markers_text
        by (intros H; now apply slice_In in H).
      rewrite strip_markers_close.
      fold (strip_markers (highlight_from text e rest)).
      rewrite IH; try assumption; try lia.
      * rewrite !slice_inside by lia.
        replace (Z.to_nat (s - cursor))
          with (Z.to_nat s - Z.to_nat cursor)%nat by lia.
        replace (Z.to_nat (e - s)) with (Z.to_nat e - Z.to_nat s)%nat by lia.
        rewrite (firstn_skipn_join text (Z.to_nat s) (Z.to_nat e)) by lia.
        apply firstn_skipn_join. lia.
      * rewrite Forall_forall in *. intros r Hr Hrne.
        specialize (Hdis r Hr). specialize (Hle r Hr).
        unfold disjoint, starts_ascending in *. cbn [fst snd] in *. lia.
Qed.

(** C10, as amended. On a text without [<] and [>] and a non-empty range
    list that is sorted, has [start <= end], is pairwise disjoint and lies
    within the text, deleting the markers from the output of the full-text
    highlighter gives back the text. *)
Theorem highlight_round_trip (text : jsstring) (ranges : list Range) :
  ~ In 60%N text -> ~ In 62%N text ->
  ranges <> [] ->
  well_placed text ranges ->
  strip_markers (highlightText text ranges) = text.
Proof.
  intros Hlt _ Hr [Hin [Hs Hd]].
  destruct text as [|c text].
  - destruct ranges; reflexivity.
  - rewrite highlightText_past_guard by (assumption || discriminate).
    rewrite strip_highlight_from; try assumption.
    + reflexivity.
    + pose proof (len_nonneg (c :: text)). lia.
    + eapply Forall_impl; [|exact Hin]. cbv beta. intros r H _. lia.
Qed.

Lemma highlight_round_trip_witness :
  strip_markers
    (highlightText (codes "abc def ghi") [(0, 3); (4, 4); (4, 7); (7, 9)])
  = codes "abc def ghi".
Proof.
  apply (highlight_round_trip (codes "abc def ghi")
           [(0, 3); (4, 4); (4, 7); (7, 9)]).
  - not_in_literal.
  - not_in_literal.
  - discriminate.
  - unfold well_placed. repeat split.
    + repeat constructor; vm_compute; congruence.
    + repeat constructor; unfold starts_ascending; cbn [fst snd]; lia.
    + repeat constructor; unfold disjoint; cbn [fst snd]; lia.
Defined.

(** C10, as stated, fails on the empty range list, which satisfies every
    hypothesis: the highlighter's guard returns the empty string. *)
Lemma highlight_round_trip_fails_without_ranges :
  ~ In 60%N (codes "a") /\ ~ In 62%N (codes "a")
  /\ well_placed (codes "a") []
  /\ strip_markers (highlightText (codes "a") []) <> codes "a".
Proof.
  repeat split; try constructor; try discriminate; not_in_literal.
Qed.

(* ================================================================== *)
(** ** The matcher: what it captures *)

Lemma is_suffix_refl s : is_suffix s s.
Proof. now exists []. Qed.

Lemma is_suffix_trans a b c : is_suffix a b -> is_suffix b c -> is_suffix a c.
Proof.
  intros [m ->] [m' ->]. exists (m' ++ m). now rewrite app_assoc.
Qed.

Lemma is_suffix_cons a s : is_suffix s (a :: s).
Proof. now exists [a]. Qed.

Lemma firstn_consumed (m t : jsstring) :
  firstn (List.length (m ++ t) - List.length t) (m ++ t) = m.
Proof.
  rewrite length_app.
  replace (List.length m + List.length t - List.length t)%nat
    with (List.length m + 0)%nat by lia.
  rewrite firstn_app_2. cbn [firstn]. apply app_nil_r.
Qed.

Section MatcherSound.
Variable s0 : jsstring.

Lemma star_sound p k prev s c res :
  Re.star p k prev s c = Some res -> caps_in c s0 -> hands_over s0 k s res.
Proof.
  revert prev. induction s as [|a s IH]; intros prev H Hc.
  - exists prev, [], c. repeat split; [exact H | apply is_suffix_refl | exact Hc].
  - cbn [Re.star] in H.
    assert (Hk : k prev (a :: s) c = Some res -> hands_over s0 k (a :: s) res).
    { intros E. exists prev, (a :: s), c.
      repeat split; [exact E | apply is_suffix_refl | exact Hc]. }
    destruct (p a); [|now apply Hk].
    destruct (Re.star p k (Some a) s c) as [res'|] eqn:E; [|now apply Hk].
    injection H as <-.
    destruct (IH _ E Hc) as [prev' [s' [c' [Hr [Hs Hc']]]]].
    exists prev', s', c'. repeat split; try assumption.
    eapply is_suffix_trans; [exact Hs | apply is_suffix_cons].
Qed.

Lemma run_sound r : forall k prev s c res,
  Re.run r k prev s c = Some res ->
  is_suffix s s0 -> caps_in c s0 -> hands_over s0 k s res.
Proof.
  induction r as [ |p| | | |a IHa b IHb|a IHa b IHb|p|p|n r IHr];
    intros k prev s c res H Hs Hc; cbn [Re.run] in H.
  - exists prev, s, c. repeat split; [exact H | apply is_suffix_refl | exact Hc].
  - destruct s as [|a s]; [discriminate|]. destruct (p a); [|discriminate].
    exists (Some a), s, c.
    repeat split; [exact H | apply is_suffix_cons | exact Hc].
  - destruct prev; [discriminate|].
    exists None, s, c. repeat split; [exact H | apply is_suffix_refl | exact Hc].
  - destruct s; [|discriminate].
    exists prev, [], c. repeat split; [exact H | apply is_suffix_refl | exact Hc].
  - destruct (xorb (Re.word_before prev) (Re.word_after s)); [|discriminate].
    exists prev, s, c. repeat split; [exact H | apply is_suffix_refl | exact Hc].
  - destruct (IHa _ _ _ _ _ H Hs Hc) as [prev1 [s1 [c1 [H1 [Hs1 Hc1]]]]].
    destruct (IHb _ _ _ _ _ H1 (is_suffix_trans _ _ _ Hs1 Hs) Hc1)
      as [prev2 [s2 [c2 [H2 [Hs2 Hc2]]]]].
    exists prev2, s2, c2. repeat split; try assumption.
    eapply is_suffix_trans; eassumption.
  - destruct (Re.run a k prev s c) as [res'|] eqn:E.
    + injection H as <-. now apply (IHa _ _ _ _ _ E).
    + now apply (IHb _ _ _ _ _ H).
  - now apply (star_sound _ _ _ _ _ _ H).
  - destruct s as [|a s]; [discriminate|]. destruct (p a); [|discriminate].
    destruct (star_sound _ _ _ _ _ _ H Hc) as [prev' [s' [c' [Hr [Hs' Hc']]]]].
    exists prev', s', c'. repeat split; try assumption.
    eapply is_suffix_trans; [exact Hs' | apply is_suffix_cons].
  - destruct (IHr _ _ _ _ _ H Hs Hc) as [prev' [s' [c' [Hr [Hs' Hc']]]]].
    cbv beta in Hr.
    exists prev', s', ((n, firstn (List.length s - List.length s') s) :: c').
    repeat split; try assumption.
    intros n' g Hg. cbn [Re.capture] in Hg.
    destruct (Nat.eqb n n'); [|now apply (Hc' n')].
    injection Hg as <-.
    destruct Hs' as [m ->]. destruct Hs as [pre ->].
    rewrite firstn_consumed. now exists pre, s'.
Qed.

Lemma exec_from_sound r prev s i mr :
  Re.exec_from r prev s i = Some mr ->
  is_suffix s s0 -> caps_in (Re.groups mr) s0.
Proof.
  revert prev i. induction s as [|a s IH]; intros prev i H Hs;
    cbn [Re.exec_from] in H.
  - destruct (Re.match_at r prev []) as [[rest c]|] eqn:E; [|discriminate].
    injection H as <-. cbn [Re.groups].
    destruct (run_sound r _ _ _ _ _ E Hs) as [p' [s' [c' [Hk [_ Hc']]]]].
    + intros n g Hg. discriminate.
    + now injection Hk as <- <-.
  - destruct (Re.match_at r prev (a :: s)) as [[rest c]|] eqn:E.
    + injection H as <-. cbn [Re.groups].
      destruct (run_sound r _ _ _ _ _ E Hs) as [p' [s' [c' [Hk [_ Hc']]]]].
      * intros n g Hg. discriminate.
      * now injection Hk as <- <-.
    + apply (IH _ _ H).
      eapply is_suffix_trans; [apply is_suffix_cons | exact Hs].
Qed.
End MatcherSound.

Lemma exec_captures r s mr :
  Re.exec r s = Some mr -> caps_in (Re.groups mr) s.
Proof.
  intros H. apply (exec_from_sound s r None s 0 mr H), is_suffix_refl.
Qed.

(* ================================================================== *)
(** ** Searching and trimming *)

Lemma starts_with_occurs p s : starts_with p s = true <-> occurs_at p s 0.
Proof.
  unfold occurs_at. cbn [skipn].
  revert s. induction p as [|a p IH]; intros [|b s]; cbn [starts_with firstn List.length];
    try (split; [reflexivity|reflexivity]); try (split; discriminate).
  rewrite andb_true_iff, N.eqb_eq, IH. split.
  - intros [-> ->]. reflexivity.
  - intros H. injection H as -> H. now split.
Qed.

Lemma occurs_at_cons p a s j : occurs_at p (a :: s) (S j) <-> occurs_at p s j.
Proof. reflexivity. Qed.

(** [find_from] returns the first occurrence. *)
Lemma find_from_first p s k :
  find_from p s = Some k -> first_occurrence s p 0 k.
Proof.
  revert k. induction s as [|a s IH]; intros k H.
  - cbn [find_from] in H. destruct (starts_with p []) eqn:E; [|discriminate].
    injection H as <-. repeat split; [lia | now apply starts_with_occurs | lia].
  - cbn [find_from] in H. destruct (starts_with p (a :: s)) eqn:E.
    + injection H as <-. repeat split; [lia | now apply starts_with_occurs | lia].
    + destruct (find_from p s) as [k'|]; [|discriminate]. injection H as <-.
      destruct (IH k' eq_refl) as [_ [Ho Hf]].
      repeat split; [lia | exact Ho |].
      intros j Hj Hoj. destruct j as [|j].
      * apply starts_with_occurs in Hoj. congruence.
      * apply (Hf j); [lia | exact Hoj].
Qed.

(** It finds one whenever there is one. *)
Lemma find_from_complete p s j :
  occurs_at p s j -> exists k, find_from p s = Some k.
Proof.
  revert j. induction s as [|a s IH]; intros j H.
  - cbn [find_from]. destruct (starts_with p []) eqn:E; [now eexists|].
    exfalso. assert (Ho : occurs_at p [] 0).
    { unfold occurs_at in *. now destruct j. }
    apply starts_with_occurs in Ho. congruence.
  - cbn [find_from]. destruct (starts_with p (a :: s)) eqn:E; [now eexists|].
    destruct j as [|j].
    + apply starts_with_occurs in H. congruence.
    + destruct (IH j H) as [k ->]. now eexists.
Qed.

Lemma first_occurrence_unique s p from k k' :
  first_occurrence s p from k -> first_occurrence s p from k' -> k = k'.
Proof.
  intros [H1 [H2 H3]] [H1' [H2' H3']].
  destruct (Nat.lt_trichotomy k k') as [H|[H|H]]; [|exact H|].
  - exfalso. apply (H3' k); [lia | exact H2].
  - exfalso. apply (H3 k'); [lia | exact H2'].
Qed.

Lemma occurs_at_skipn p s from j :
  occurs_at p (skipn from s) j <-> occurs_at p s (from + j).
Proof. unfold occurs_at. rewrite skipn_skipn, (Nat.add_comm j from). reflexivity. Qed.

Lemma first_occurrence_skipn s p from k :
  first_occurrence (skipn from s) p 0 k -> first_occurrence s p from (from + k).
Proof.
  intros [_ [Ho Hf]]. repeat split; [lia | now apply occurs_at_skipn |].
  intros j Hj Hoj. apply (Hf (j - from)%nat); [lia|].
  apply occurs_at_skipn. now replace (from + (j - from))%nat with j by lia.
Qed.

(** An occurrence of a non-empty string ends inside the text. *)
Lemma occurs_at_inside p s k :
  p <> [] -> occurs_at p s k -> (k + List.length p <= List.length s)%nat.
Proof.
  unfold occurs_at. intros Hp H.
  apply (f_equal (@List.length N)) in H.
  rewrite length_firstn, length_skipn in H.
  destruct p; [congruence|]. cbn [List.length] in *. lia.
Qed.

(** [indexOf] on a string that occurs at or after the start of the search. *)
Lemma indexOf_first text p position j :
  (search_start text position <= j)%nat -> occurs_at p text j ->
  exists k, first_occurrence text p (search_start text position) k
            /\ indexOf text p position = Z.of_nat k.
Proof.
  intros Hj Ho. unfold indexOf. fold (search_start text position).
  set (start := search_start text position) in *.
  assert (Ho' : occurs_at p (skipn start text) (j - start)).
  { apply occurs_at_skipn. now replace (start + (j - start))%nat with j by lia. }
  destruct (find_from_complete _ _ _ Ho') as [k Hk]. rewrite Hk.
  exists (start + k)%nat. split.
  - apply first_occurrence_skipn. now apply find_from_first.
  - unfold start, search_start. pose proof (len_nonneg text). lia.
Qed.

Lemma dropWhile_nonempty p s :
  dropWhile p s <> [] <-> exists c, In c s /\ p c = false.
Proof.
  induction s as [|a s IH]; cbn [dropWhile].
  - split; [congruence | intros [c [[] _]]].
  - destruct (p a) eqn:E.
    + rewrite IH. split; intros [c [Hin Hc]]; exists c.
      * split; [now right | exact Hc].
      * destruct Hin as [<-|Hin]; [congruence | now split].
    + split; [|discriminate]. intros _. exists a. split; [now left | exact E].
Qed.

Lemma dropWhile_keeps p s c :
  p c = false -> (In c (dropWhile p s) <-> In c s).
Proof.
  intros Hc. induction s as [|a s IH]; cbn [dropWhile]; [reflexivity|].
  destruct (p a) eqn:E; [|reflexivity].
  rewrite IH. split; [now right|]. intros [<-|H]; [congruence | exact H].
Qed.

(** The trimmed string is non-empty exactly when the string holds a
    character that is not whitespace. *)
Lemma trim_nonempty s : (0 <? len (trim s)) = true <-> has_nonspace s.
Proof.
  assert (H : trim s <> [] <-> has_nonspace s).
  { unfold trim, trimEnd, trimStart, has_nonspace.
    split.
    - intros H.
      assert (H' : dropWhile is_ws (List.rev (dropWhile is_ws s)) <> []).
      { intros E. apply H. now rewrite E. }
      apply dropWhile_nonempty in H'. destruct H' as [c [Hin Hc]].
      exists c. split; [|exact Hc].
      apply in_rev in Hin. now apply (dropWhile_keeps is_ws s c Hc).
    - intros [c [Hin Hc]] E.
      apply (f_equal (@List.rev N)) in E. rewrite rev_involutive in E.
      revert E. apply dropWhile_nonempty. exists c. split; [|exact Hc].
      apply in_rev. rewrite rev_involutive.
      now apply (dropWhile_keeps is_ws s c Hc). }
  rewrite <- H. unfold len. rewrite Z.ltb_lt.
  destruct (trim s); cbn [List.length]; split; try congruence; try lia.
Qed.

(* ================================================================== *)
(** ** Segment extraction *)

Lemma slice_to_end s x :
  slice s x None = skipn (Z.to_nat (rel_index (len s) x)) s.
Proof.
  unfold slice. apply firstn_all2. rewrite length_skipn.
  pose proof (rel_index_bounds (len s) x (len_nonneg s)). unfold len in *. lia.
Qed.

Lemma search_start_le text position :
  (search_start text position
   <= Z.to_nat (rel_index (len text) position))%nat.
Proof.
  unfold search_start, rel_index. pose proof (len_nonneg text).
  destruct (Z.ltb_spec position 0); lia.
Qed.

Lemma is_substring_skipn g s from :
  is_substring g (skipn from s) -> (from <= List.length s)%nat ->
  exists j, (from <= j)%nat /\ occurs_at g s j.
Proof.
  intros [a [b E]] Hf. exists (from + List.length a)%nat. split; [lia|].
  unfold occurs_at.
  rewrite (Nat.add_comm from), <- skipn_skipn, E.
  rewrite skipn_app, skipn_all, Nat.sub_diag. cbn [skipn app].
  rewrite firstn_app, firstn_all, Nat.sub_diag. cbn [firstn]. apply app_nil_r.
Qed.

(** The [next] of a segment is [null] or a non-empty string that the
    regular expression captured in the text after the range. *)
Lemma extractTextSegment_next text start end_ index :
  next (extractTextSegment text (start, end_) index) = None
  \/ exists nx,
       next (extractTextSegment text (start, end_) index) = Some nx
       /\ nx <> [] /\ is_substring nx (slice text end_ None).
Proof.
  unfold extractTextSegment. cbn [next].
  destruct (Re.exec re_after (slice text end_ None)) as [mr|] eqn:E;
    [|left; reflexivity].
  pose proof (exec_captures _ _ _ E) as Hc.
  unfold js_or, or_null, truthy_opt.
  destruct (Re.capture 1 (Re.groups mr)) as [[|a g]|] eqn:E1; cbn [truthy];
    try (right; exists (a :: g); repeat split;
         [discriminate | now apply (Hc 1%nat)]);
    destruct (Re.capture 2 (Re.groups mr)) as [[|a' g']|] eqn:E2; cbn [truthy];
    try (left; reflexivity);
    right; exists (a' :: g'); repeat split;
      try discriminate; now apply (Hc 2%nat).
Qed.

(** [hasMoreContent] on a string that occurs at or after the start of the
    search. *)
Lemma hasMoreContent_found text end_ nx j :
  nx <> [] -> (search_start text end_ <= j)%nat -> occurs_at nx text j ->
  exists k,
    first_occurrence text nx (search_start text end_) k
    /\ (hasMoreContent text end_ (Some nx) = true
        <-> has_nonspace (skipn (k + List.length nx) text)).
Proof.
  intros Hnx Hj Ho.
  destruct (indexOf_first text nx end_ j Hj Ho) as [k [Hk Hi]].
  exists k. split; [exact Hk|].
  unfold hasMoreContent, truthy_opt, str.
  destruct nx as [|a nx]; [congruence|]. cbn [truthy].
  rewrite Hi, trim_nonempty.
  destruct Hk as [_ [Hok _]].
  pose proof (occurs_at_inside _ _ _ Hnx Hok) as Hin.
  rewrite slice_to_end_inside by (unfold len; lia).
  replace (Z.to_nat (Z.of_nat k + len (a :: nx)))
    with (k + List.length (a :: nx))%nat by (unfold len; lia).
  reflexivity.
Qed.

(** C8. In segment extraction [hasMoreContent] is true exactly when [next]
    is not [null] and some character that is not whitespace remains after
    the first occurrence of [next] in the text at or after the range's end
    offset (the position at which [indexOf] starts searching); and the
    context is the whitespace-collapsed, trimmed context string with
    [" [...] "] appended when [hasMoreContent] is true. *)
Theorem hasMoreContent_correct (text : jsstring) (start end_ : Z)
    (index : nat) :
  (hasMoreContent text end_
     (next (extractTextSegment text (start, end_) index)) = true
   <-> exists nx k,
         next (extractTextSegment text (start, end_) index) = Some nx
         /\ first_occurrence text nx (search_start text end_) k
         /\ has_nonspace (skipn (k + List.length nx) text))
  /\ context (extractTextSegment text (start, end_) index)
     = trim (Re.replace_all re_spaces (fun _ => codes " ")
               (context_upto_next index
                  (target (extractTextSegment text (start, end_) index))
                  (previous (extractTextSegment text (start, end_) index))
                  (next (extractTextSegment text (start, end_) index))
                ++ (if hasMoreContent text end_
                         (next (extractTextSegment text (start, end_) index))
                    then codes " [...] " else []))).
Proof.
  split.
  - destruct (extractTextSegment_next text start end_ index)
      as [-> | [nx [-> [Hnx Hsub]]]].
    + split; [discriminate | intros [nx [k [H _]]]; discriminate].
    + rewrite slice_to_end in Hsub.
      apply is_substring_skipn in Hsub.
      2:{ pose proof (rel_index_bounds (len text) end_ (len_nonneg text)).
          unfold len in *. lia. }
      destruct Hsub as [j [Hj Ho]].
      pose proof (search_start_le text end_) as Hle.
      destruct (hasMoreContent_found text end_ nx j Hnx ltac:(lia) Ho)
        as [k [Hk Hiff]].
      rewrite Hiff. split.
      * intros H. now exists nx, k.
      * intros [nx' [k' [E [Hk' H]]]]. injection E as <-.
        now rewrite (first_occurrence_unique _ _ _ _ _ Hk Hk').
  - unfold extractTextSegment. cbn [context target previous next].
    unfold raw_context.
    match goal with
    | |- context [if hasMoreContent ?t ?e ?n then _ else _] =>
        destruct (hasMoreContent t e n)
    end; [reflexivity | now rewrite app_nil_r].
Qed.

(* ================================================================== *)
(** ** Whitespace collapse and the seam between two segments *)

Lemma dropWhile_length p s : (List.length (dropWhile p s) <= List.length s)%nat.
Proof.
  induction s as [|a s IH]; cbn [dropWhile List.length]; [lia|].
  destruct (p a); cbn [List.length]; lia.
Qed.

Lemma skipn_dropWhile p s :
  skipn (List.length s - List.length (dropWhile p s)) s = dropWhile p s.
Proof.
  induction s as [|a s IH]; [reflexivity|].
  cbn [dropWhile]. destruct (p a).
  - pose proof (dropWhile_length p s).
    replace (List.length (a :: s) - List.length (dropWhile p s))%nat
      with (S (List.length s - List.length (dropWhile p s)))
      by (cbn [List.length]; lia).
    exact IH.
  - now rewrite Nat.sub_diag.
Qed.

Lemma dropWhile_head p s y t : dropWhile p s = y :: t -> p y = false.
Proof.
  induction s as [|a s IH]; cbn [dropWhile]; [discriminate|].
  destruct (p a) eqn:E; [exact IH|]. intros H. injection H as <- _. exact E.
Qed.

Lemma dropWhile_app_stop p a y b :
  p y = false -> exists w, dropWhile p (a ++ y :: b) = w ++ y :: b.
Proof.
  intros Hy. induction a as [|c a IH]; cbn [app dropWhile].
  - rewrite Hy. now exists [].
  - destruct (p c); [exact IH|]. now exists (c :: a).
Qed.

(** Trimming at the end stops at a character that is not whitespace. *)
Lemma trimEnd_stop pre y z :
  is_ws y = false -> exists z', trimEnd (pre ++ y :: z) = pre ++ y :: z'.
Proof.
  intros Hy. unfold trimEnd.
  rewrite rev_app_distr. cbn [List.rev]. rewrite <- app_assoc. cbn [app].
  destruct (dropWhile_app_stop is_ws (List.rev z) y (List.rev pre) Hy) as [w ->].
  exists (List.rev w).
  rewrite rev_app_distr. cbn [List.rev].
  now rewrite rev_involutive, <- app_assoc.
Qed.

(** Passing over the rest of a match resumes the scan behind it. *)
Lemma replace_all_from_skip r f n : forall s prev,
  (n <= List.length s)%nat ->
  exists prev',
    Re.replace_all_from r f prev s n = Re.replace_all_from r f prev' (skipn n s) 0.
Proof.
  induction n as [|n IH]; intros s prev Hn.
  - now exists prev.
  - destruct s as [|a s]; [cbn [List.length] in Hn; lia|].
    cbn [Re.replace_all_from skipn]. apply IH. cbn [List.length] in Hn. lia.
Qed.

Lemma star_ws_greedy prev s c :
  Re.star is_ws (fun _ s' c' => Some (s', c')) prev s c
  = Some (dropWhile is_ws s, c).
Proof.
  revert prev. induction s as [|a s IH]; intros prev; [reflexivity|].
  cbn [Re.star dropWhile]. destruct (is_ws a); [|reflexivity].
  now rewrite IH.
Qed.

Lemma collapse_miss f prev a s :
  is_ws a = false ->
  Re.replace_all_from re_spaces f prev (a :: s) 0
  = a :: Re.replace_all_from re_spaces f (Some a) s 0.
Proof.
  intros Ha. cbn [Re.replace_all_from]. unfold Re.match_at, re_spaces.
  cbn [Re.run]. now rewrite Ha.
Qed.

Lemma collapse_hit prev a s :
  is_ws a = true ->
  exists prev',
    Re.replace_all_from re_spaces (fun _ => codes " ") prev (a :: s) 0
    = codes " "
        ++ Re.replace_all_from re_spaces (fun _ => codes " ") prev'
             (dropWhile is_ws s) 0.
Proof.
  intros Ha. cbn [Re.replace_all_from]. unfold Re.match_at, re_spaces.
  cbn [Re.run]. rewrite Ha, star_ws_greedy.
  pose proof (dropWhile_length is_ws s) as Hd.
  replace (List.length (a :: s) - List.length (dropWhile is_ws s))%nat
    with (S (List.length s - List.length (dropWhile is_ws s)))
    by (cbn [List.length]; lia).
  cbn [firstn].
  destruct (replace_all_from_skip re_spaces (fun _ => codes " ")
              (List.length (firstn (List.length s
                                    - List.length (dropWhile is_ws s)) s))
              s (Some a)) as [prev' E].
  { rewrite length_firstn. lia. }
  unfold re_spaces in E. exists prev'. rewrite E. f_equal. f_equal.
  rewrite length_firstn, Nat.min_l by lia. apply skipn_dropWhile.
Qed.

(** Collapsing and trimming a string that starts with the ellipsis marker
    and a space, and holds some other character that is not whitespace
    after them, keeps the marker and one space in front of such a
    character. *)
Lemma collapse_trim_ellipsis x :
  has_nonspace x ->
  exists y z,
    trim (Re.replace_all re_spaces (fun _ => codes " ") (codes "[...] " ++ x))
    = codes "[...] " ++ y :: z
    /\ is_ws y = false.
Proof.
  intros Hx. unfold Re.replace_all.
  change (codes "[...] " ++ x) with (91 :: 46 :: 46 :: 46 :: 93 :: 32 :: x)%N.
  rewrite !collapse_miss by reflexivity.
  destruct (collapse_hit (Some 93%N) 32%N x eq_refl) as [prev' ->].
  destruct (dropWhile is_ws x) as [|y x'] eqn:E.
  - exfalso. revert E. now apply dropWhile_nonempty.
  - pose proof (dropWhile_head _ _ _ _ E) as Hy.
    rewrite collapse_miss by exact Hy.
    unfold trim, trimStart. cbn [app].
    change (dropWhile is_ws (91%N :: ?t)) with (91%N :: t).
    change (codes " ") with [32%N]. cbn [app].
    match goal with
    | |- context [trimEnd (?a :: ?b :: ?c :: ?d :: ?e :: ?g :: y :: ?t)] =>
        destruct (trimEnd_stop [a; b; c; d; e; g] y t Hy) as [z' Hz']
    end.
    exists y, z'. split; [exact Hz' | exact Hy].
Qed.

(** The context string of a segment that is not the first starts with the
    ellipsis marker and a space, and goes on to the opening marker. *)
Lemma raw_context_later text end_ i target_ previous_ next_ :
  exists x,
    raw_context text end_ (S i) target_ previous_ next_ = codes "[...] " ++ x
    /\ has_nonspace x.
Proof.
  unfold raw_context, context_upto_next. cbn [Nat.ltb Nat.leb app].
  set (tail1 := if Re.test re_punct (str next_)
                then str next_ else codes " " ++ str next_).
  assert (Hem : forall a b, has_nonspace (a ++ codes " <em>" ++ b)).
  { intros a b. exists 60%N. split; [|reflexivity].
    apply in_or_app. right. right. now left. }
  destruct (hasMoreContent text end_ next_), (truthy_opt next_),
    (truthy_opt previous_);
    rewrite <- ?app_assoc;
    (eexists; split; [reflexivity|]);
    solve [apply Hem | apply (Hem [])].
Qed.

Lemma extractTextSegment_later text r i :
  exists y z,
    context (extractTextSegment text r (S i)) = codes "[...] " ++ y :: z
    /\ is_ws y = false.
Proof.
  destruct r as [start end_]. unfold extractTextSegment. cbn [context].
  match goal with
  | |- context [raw_context ?t ?e (S i) ?tg ?p ?n] =>
      destruct (raw_context_later t e i tg p n) as [x [-> Hx]]
  end.
  now apply collapse_trim_ellipsis.
Qed.

(** On such a context the regular expression of the seam matches the
    marker and the one space, and the rewrite is the one the
    specification words. *)
Lemma seam_rewrite y z :
  is_ws y = false ->
  Re.replace re_seam (codes " ") (codes "[...] " ++ y :: z)
  = strip_leading_ellipsis (codes "[...] " ++ y :: z).
Proof.
  intros Hy. unfold Re.replace, Re.exec, strip_leading_ellipsis.
  change (codes "[...] " ++ y :: z)
    with (91 :: 46 :: 46 :: 46 :: 93 :: 32 :: y :: z)%N.
  cbn [Re.exec_from]. unfold Re.match_at, re_seam, Re.Chr, Re.Dot.
  cbn [Re.run]. cbn [N.eqb Pos.eqb].
  change (negb (is_line_terminator 46)) with true.
  change (is_ws 32) with true. cbn iota.
  cbn [Re.star]. rewrite Hy. reflexivity.
Qed.

Lemma map_index_later text ranges i :
  Forall (fun sg => Re.replace re_seam (codes " ") (context sg)
                    = strip_leading_ellipsis (context sg))
    (map_index (extractTextSegment text) ranges (S i)).
Proof.
  revert i. induction ranges as [|r ranges IH]; intros i; cbn [map_index];
    constructor; [|apply IH].
  destruct (extractTextSegment_later text r i) as [y [z [-> Hy]]].
  now apply seam_rewrite.
Qed.

(* ================================================================== *)
(** ** Excerpt assembly *)

Lemma set_context_at (pre : list ExtractedSegment) sg rest ctx :
  set_context (pre ++ sg :: rest) (List.length pre) ctx
  = pre ++ mkSegment (range sg) (target sg) (previous sg) (next sg) ctx :: rest.
Proof.
  induction pre as [|p pre IH]; cbn [set_context app List.length];
    [reflexivity | now rewrite IH].
Qed.

(** One call of the reducer at the position of [cur]. *)
Lemma excerptStep_at pre cur rest output :
  excerptStep (output, pre ++ cur :: rest) (List.length pre)
  = (output ++ context cur,
     match rest with
     | [] => pre ++ [cur]
     | nxt :: rest' =>
         (pre ++ [cur])
           ++ mkSegment (range nxt) (target nxt) (previous nxt) (next nxt)
                (Re.replace re_seam (codes " ") (context nxt)) :: rest'
     end).
Proof.
  unfold excerptStep.
  rewrite nth_error_app2, Nat.sub_diag by lia. cbn [nth_error].
  replace (pre ++ cur :: rest) with ((pre ++ [cur]) ++ rest)
    by now rewrite <- app_assoc.
  replace (List.length pre + 1)%nat with (List.length (pre ++ [cur]))
    by (rewrite length_app; reflexivity).
  destruct rest as [|nxt rest].
  - rewrite nth_error_app2, Nat.sub_diag by lia. cbn [nth_error].
    now rewrite app_nil_r.
  - rewrite nth_error_app2, Nat.sub_diag by lia. cbn [nth_error].
    now rewrite set_context_at.
Qed.

(** The reducer, from the segment at position [length pre] on: the current
    context is appended as it stands, every later one after its rewrite. *)
Lemma fold_excerptStep rest : forall pre cur output,
  fst (fold_left excerptStep
         (seq (List.length pre) (S (List.length rest)))
         (output, pre ++ cur :: rest))
  = output ++ context cur
      ++ List.concat
           (map (fun sg => Re.replace re_seam (codes " ") (context sg)) rest).
Proof.
  induction rest as [|nxt rest IH]; intros pre cur output;
    change (seq (List.length pre) (S ?n))
      with (List.length pre :: seq (S (List.length pre)) n);
    cbn [fold_left]; rewrite excerptStep_at.
  - cbn [List.length seq fold_left fst map List.concat].
    now rewrite app_nil_r.
  - change (List.length (nxt :: rest)) with (S (List.length rest)).
    replace (S (List.length pre)) with (List.length (pre ++ [cur]))
      by (rewrite length_app; cbn [List.length]; lia).
    rewrite IH. cbn [context map List.concat]. now rewrite <- !app_assoc.
Qed.

(** C7. Past its guard the excerpt assembler returns the concatenation,
    trimmed, of the segment contexts in order, where every context that
    follows another one has had a leading ellipsis marker and space
    rewritten to a single space. *)
Theorem excerpt_assembly (text : jsstring) (ranges : list Range) :
  text <> [] ->
  excerptHighlighting text ranges
  = trim (List.concat (seam_rewritten
                    (map context
                       (map_index (extractTextSegment text) ranges 0)))).
Proof.
  intros Ht. unfold excerptHighlighting.
  destruct text as [|c text]; [congruence|].
  destruct ranges as [|r ranges]; [reflexivity|].
  cbn [truthy negb orb List.length Nat.eqb map_index map seam_rewritten].
  f_equal.
  pose proof (fold_excerptStep
                (map_index (extractTextSegment (c :: text)) ranges 1) []
                (extractTextSegment (c :: text) r 0) []) as H.
  cbn [List.length app] in H. rewrite H. cbn [List.concat]. f_equal.
  rewrite map_map. f_equal.
  apply map_ext_Forall, map_index_later.
Qed.

Lemma excerpt_assembly_witness :
  excerptHighlighting
    (codes "Hello world! This is a sample text for testing purposes.")
    [(6, 11); (35, 38)]
  = trim (List.concat (seam_rewritten
                    (map context
                       (map_index
                          (extractTextSegment
                             (codes "Hello world! This is a sample text for testing purposes."))
                          [(6, 11); (35, 38)] 0)))).
Proof.
  apply (excerpt_assembly
           (codes "Hello world! This is a sample text for testing purposes.")
           [(6, 11); (35, 38)]).
  discriminate.
Defined.

(* ================================================================== *)
(** ** The test suite and the demo of the repository, on the model *)

Example test_highlights_entire_text :
  highlightTextRanges
    (codes "Dies ist die erste Markierung und dies ist die zweite Markierung! Hierauf folgt eine weitere Markierung, welche markiert wird.")
    [(19, 29); (54, 64); (93, 103); (121, 125)] false
  = Return (codes "Dies ist die erste <em>Markierung</em> und dies ist die zweite <em>Markierung</em>! Hierauf folgt eine weitere <em>Markierung</em>, welche markiert <em>wird</em>.").
Proof. vm_compute. reflexivity. Qed.

Example demo_excerpt :
  highlightTextRanges
    (codes "Dies ist die erste Markierung und dies ist die zweite Markierung! Hierauf folgt eine weitere Markierung, welche markiert wird.")
    [(19, 29); (54, 64); (93, 103); (121, 125); (0, 4)] true
  = Return (codes "<em>Dies</em> ist [...] erste <em>Markierung</em> und [...] zweite <em>Markierung</em>! [...] weitere <em>Markierung</em>, [...] markiert <em>wird</em>.").
Proof. vm_compute. reflexivity. Qed.

Example test_normalizes_and_sorts :
  highlightTextRanges (codes "abc def ghi") [(10, 9); (4, 4); (0, 3)] false
  = Return (codes "<em>abc</em> def g<em>h</em>i").
Proof. vm_compute. reflexivity. Qed.

Example test_merges_overlapping :
  highlightTextRanges (codes "abcdefghij") [(1, 4); (3, 6)] false
  = Return (codes "a<em>bcdef</em>ghij").
Proof. vm_compute. reflexivity. Qed.

Example test_removes_duplicates :
  highlightTextRanges (codes "abcdefgh") [(1, 3); (1, 3)] false
  = Return (codes "a<em>bc</em>defgh").
Proof. vm_compute. reflexivity. Qed.

(** The text of this test holds two double quotes (code unit 34); its
    single range ends at the length of the text, 29. *)
Example test_escapes_html :
  highlightTextRanges
    (codes "<script>alert(" ++ [34%N] ++ codes "XSS" ++ [34%N]
       ++ codes ")</script>")
    [(0, 29)] false
  = Return (codes "<em>&lt;script&gt;alert(&quot;XSS&quot;)&lt;/script&gt;</em>").
Proof. vm_compute. reflexivity. Qed.

Example test_normalizeRanges :
  normalizeRanges [(5, 3); (2, 8); (10, 6)] = [(2, 8); (3, 5); (6, 10)].
Proof. reflexivity. Qed.

Example test_removeDuplicates :
  removeDuplicates [(3, 5); (5, 7); (3, 5); (8, 10)]
  = [(3, 5); (5, 7); (8, 10)].
Proof. vm_compute. reflexivity. Qed.

Example test_mergeRanges_overlapping :
  mergeRanges [(3, 5); (4, 7); (8, 10)] = [(3, 7); (8, 10)].
Proof. reflexivity. Qed.

Example test_mergeRanges_adjacent :
  mergeRanges [(1, 3); (3, 5); (6, 8)] = [(1, 5); (6, 8)].
Proof. reflexivity. Qed.

Example test_mergeRanges_unchanged :
  mergeRanges [(1, 3); (5, 7); (8, 10)] = [(1, 3); (5, 7); (8, 10)].
Proof. reflexivity. Qed.

Example test_pipeline :
  processRanges [(10, 8); (3, 5); (5, 3); (6, 2)] = [(2, 6); (8, 10)].
Proof. vm_compute. reflexivity. Qed.

(* ================================================================== *)
(** ** Further properties of the range pipeline *)

Lemma range_le_refl a : range_le a a.
Proof. unfold range_le. lia. Qed.

Lemma range_le_trans a b c : range_le a b -> range_le b c -> range_le a c.
Proof. unfold range_le. lia. Qed.

Lemma range_le_antisym a b : range_le a b -> range_le b a -> a = b.
Proof.
  destruct a as [a1 a2], b as [b1 b2]. unfold range_le. cbn [fst snd].
  intros H1 H2. f_equal; lia.
Qed.

Lemma range_le_total a b : range_le a b \/ range_le b a.
Proof. unfold range_le. lia. Qed.

Lemma insert_sorted_perm (x : Range) l :
  Permutation (insert_sorted compareRanges x l) (x :: l).
Proof.
  induction l as [|y l IH]; cbn [insert_sorted]; [reflexivity|].
  destruct (compareRanges x y <=? 0); [reflexivity|].
  rewrite IH. apply perm_swap.
Qed.

Lemma array_sort_perm (l : list Range) :
  Permutation (array_sort compareRanges l) l.
Proof.
  induction l as [|x l IH]; cbn [array_sort]; [reflexivity|].
  rewrite insert_sorted_perm. now constructor.
Qed.

Lemma insert_sorted_strongly x l :
  StronglySorted range_le l ->
  StronglySorted range_le (insert_sorted compareRanges x l).
Proof.
  induction 1 as [|y l Hs IH Hall]; cbn [insert_sorted].
  - repeat constructor.
  - destruct (Z.leb_spec (compareRanges x y) 0) as [Hle|Hgt].
    + apply compareRanges_le in Hle.
      constructor; [now constructor|].
      constructor; [exact Hle|].
      eapply Forall_impl; [|exact Hall].
      intros z Hz. now apply (range_le_trans x y z).
    + assert (Hyx : range_le y x).
      { destruct (range_le_total x y) as [H|H]; [|exact H].
        apply compareRanges_le in H. lia. }
      constructor; [exact IH|].
      apply insert_sorted_Forall; assumption.
Qed.

Lemma array_sort_strongly l :
  StronglySorted range_le (array_sort compareRanges l).
Proof.
  induction l as [|x l IH]; cbn [array_sort]; [constructor|].
  now apply insert_sorted_strongly.
Qed.

Lemma map_order_endpoints l :
  map (fun '(a, b) => (Z.min a b, Z.max a b)) l = map order_endpoints l.
Proof. apply map_ext. now intros [a b]. Qed.

Lemma normalizeRanges_perm ranges :
  Permutation (normalizeRanges ranges) (map order_endpoints ranges).
Proof.
  unfold normalizeRanges. rewrite map_order_endpoints. apply array_sort_perm.
Qed.

Lemma normalizeRanges_strongly ranges :
  StronglySorted range_le (normalizeRanges ranges).
Proof. unfold normalizeRanges. apply array_sort_strongly. Qed.

(** X1. [normalizeRanges] returns the ranges of its argument, each with its
    endpoints in order, rearranged into ascending order by start and then
    by end: nothing is added and nothing is lost. *)
Theorem normalizeRanges_sorts (ranges : list Range) :
  Permutation (normalizeRanges ranges) (map order_endpoints ranges)
  /\ StronglySorted range_le (normalizeRanges ranges).
Proof.
  split; [apply normalizeRanges_perm | apply normalizeRanges_strongly].
Qed.

(** Two sorted lists with the same elements are the same list. *)
Lemma sorted_perm_unique l1 : forall l2,
  StronglySorted range_le l1 -> StronglySorted range_le l2 ->
  Permutation l1 l2 -> l1 = l2.
Proof.
  induction l1 as [|a l1 IH]; intros l2 H1 H2 Hp.
  - apply Permutation_nil in Hp. now subst.
  - destruct l2 as [|b l2].
    + apply Permutation_sym, Permutation_nil in Hp. discriminate.
    + inversion H1 as [|? ? H1' Ha]; subst.
      inversion H2 as [|? ? H2' Hb]; subst.
      rewrite Forall_forall in Ha, Hb.
      assert (Hab : a = b).
      { assert (Hina : In a (b :: l2))
          by (eapply Permutation_in; [exact Hp | now left]).
        assert (Hinb : In b (a :: l1))
          by (eapply Permutation_in; [apply Permutation_sym; exact Hp | now left]).
        destruct Hina as [E|Hina]; [now subst|].
        destruct Hinb as [E|Hinb]; [now subst|].
        apply range_le_antisym; [now apply Ha | now apply Hb]. }
      subst b. f_equal. apply IH; try assumption.
      now apply Permutation_cons_inv in Hp.
Qed.

Lemma normalizeRanges_canonical l l' :
  Permutation (map order_endpoints l) (map order_endpoints l') ->
  normalizeRanges l = normalizeRanges l'.
Proof.
  intros Hp. apply sorted_perm_unique; try apply normalizeRanges_strongly.
  rewrite (normalizeRanges_perm l), Hp.
  symmetry. apply normalizeRanges_perm.
Qed.

(** X2. The facade does not depend on the order in which the ranges are
    given, nor on the order of the two endpoints of a range: two range
    lists that hold the same ranges up to these give the same result. *)
Theorem facade_order_independent (text : jsstring) (ranges ranges' : list Range)
    (createExcerpt : bool) :
  Permutation (map order_endpoints ranges) (map order_endpoints ranges') ->
  highlightTextRanges text ranges createExcerpt
  = highlightTextRanges text ranges' createExcerpt.
Proof.
  intros Hp. unfold highlightTextRanges.
  rewrite !processRanges_unfold, (normalizeRanges_canonical _ _ Hp).
  apply Permutation_length in Hp. rewrite !length_map in Hp. now rewrite Hp.
Qed.

Lemma facade_order_independent_witness :
  highlightTextRanges (codes "abc def ghi") [(10, 9); (4, 4); (0, 3)] false
  = highlightTextRanges (codes "abc def ghi") [(3, 0); (9, 10); (4, 4)] false.
Proof.
  apply (facade_order_independent (codes "abc def ghi")
           [(10, 9); (4, 4); (0, 3)] [(3, 0); (9, 10); (4, 4)] false).
  cbn [map order_endpoints fst snd Z.min Z.max Z.compare Pos.compare
       Pos.compare_cont].
  apply Permutation_cons_app with (l1 := [(0, 3)]) (l2 := [(4, 4)]).
  apply perm_swap.
Defined.

(** *** [removeDuplicates] keeps the first occurrence of every range *)

(** The entries of the map are keyed by the string of their value. *)
Lemma Map_set_stringify (m : JsMap Range) r :
  Forall (fun kv => fst kv = JSON_stringify (snd kv)) m ->
  Map_set (JSON_stringify r) r m
  = if in_dec Range_eq_dec r (Map_values m) then m
    else m ++ [(JSON_stringify r, r)].
Proof.
  induction 1 as [|[k v] m Hk Hm IH]; cbn [Map_set Map_values map].
  - reflexivity.
  - cbn [fst snd] in Hk |- *. subst k.
    destruct (key_eqb (JSON_stringify v) (JSON_stringify r)) eqn:E.
    + apply key_eqb_eq, JSON_stringify_inj in E. subst v.
      destruct (in_dec Range_eq_dec r (r :: map snd m)) as [_|n];
        [reflexivity | exfalso; apply n; now left].
    + assert (Hne : v <> r).
      { intros ->. assert (key_eqb (JSON_stringify r) (JSON_stringify r) = true)
          by now apply key_eqb_eq. congruence. }
      rewrite IH. unfold Map_values.
      destruct (in_dec Range_eq_dec r (map snd m)) as [i|n],
               (in_dec Range_eq_dec r (v :: map snd m)) as [i'|n'];
        try reflexivity.
      * exfalso. apply n'. now right.
      * exfalso. destruct i' as [E'|i']; [congruence | now apply n].
Qed.

Lemma fold_Map_set_first l : forall m : JsMap Range,
  Forall (fun kv => fst kv = JSON_stringify (snd kv)) m ->
  Map_values
    (fold_left (fun m kv => Map_set (fst kv) (snd kv) m)
       (map (fun range => (JSON_stringify range, range)) l) m)
  = Map_values m ++ first_occurrences (Map_values m) l.
Proof.
  induction l as [|r l IH]; intros m Hm; cbn [map fold_left first_occurrences fst snd].
  - now rewrite app_nil_r.
  - rewrite (Map_set_stringify m r Hm).
    destruct (in_dec Range_eq_dec r (Map_values m)) as [i|n].
    + now apply IH.
    + rewrite IH.
      * unfold Map_values. rewrite map_app. cbn [map snd].
        now rewrite <- app_assoc.
      * apply Forall_app. split; [exact Hm | now repeat constructor].
Qed.

Lemma removeDuplicates_first l : removeDuplicates l = first_occurrences [] l.
Proof.
  unfold removeDuplicates, Map_new.
  now rewrite (fold_Map_set_first l [] (Forall_nil _)).
Qed.

Lemma first_occurrences_In seen l r :
  In r (first_occurrences seen l) <-> In r l /\ ~ In r seen.
Proof.
  revert seen. induction l as [|a l IH]; intros seen; cbn [first_occurrences].
  - cbn [In]. tauto.
  - destruct (in_dec Range_eq_dec a seen) as [i|n].
    + rewrite IH. cbn [In]. split; [tauto|].
      intros [[E|H] Hn]; [subst; tauto | tauto].
    + cbn [In]. rewrite IH, in_app_iff. cbn [In].
      destruct (Range_eq_dec a r) as [E|E]; [subst; tauto | tauto].
Qed.

Lemma first_occurrences_NoDup seen l : NoDup (first_occurrences seen l).
Proof.
  revert seen. induction l as [|a l IH]; intros seen; cbn [first_occurrences].
  - constructor.
  - destruct (in_dec Range_eq_dec a seen) as [i|n]; [apply IH|].
    constructor; [|apply IH].
    rewrite first_occurrences_In, in_app_iff. cbn [In]. tauto.
Qed.

Lemma first_occurrences_sorted (R : Range -> Range -> Prop) seen l :
  StronglySorted R l -> StronglySorted R (first_occurrences seen l).
Proof.
  intros H. revert seen.
  induction H as [|a l Hs IH Hall]; intros seen; cbn [first_occurrences].
  - constructor.
  - destruct (in_dec Range_eq_dec a seen) as [i|n]; [apply IH|].
    constructor; [apply IH|].
    rewrite Forall_forall in *. intros r Hr.
    apply first_occurrences_In in Hr. now apply Hall.
Qed.

Lemma removeDuplicates_In r l : In r (removeDuplicates l) <-> In r l.
Proof.
  rewrite removeDuplicates_first, first_occurrences_In. cbn [In]. tauto.
Qed.

(** X3. [removeDuplicates] returns every range of its argument exactly
    once: the result has no duplicates, holds the same ranges as the
    argument, and lists them in the order of their first occurrence. *)
Theorem removeDuplicates_correct (ranges : list Range) :
  NoDup (removeDuplicates ranges)
  /\ (forall r, In r (removeDuplicates ranges) <-> In r ranges)
  /\ removeDuplicates ranges = first_occurrences [] ranges.
Proof.
  repeat split.
  - rewrite removeDuplicates_first. apply first_occurrences_NoDup.
  - now apply removeDuplicates_In.
  - now apply removeDuplicates_In.
  - apply removeDuplicates_first.
Qed.

(** *** [mergeRanges] *)

Lemma merge_from_length cur l :
  (List.length (merge_from cur l) <= S (List.length l))%nat.
Proof.
  revert cur. induction l as [|[s e] l IH]; intros cur; cbn [merge_from List.length];
    [lia|].
  destruct (s <=? snd cur); [specialize (IH (fst cur, Z.max (snd cur) e))
                            | specialize (IH (s, e))]; cbn [List.length]; lia.
Qed.

(** X4. On ranges with [start <= end], in whatever order, [mergeRanges]
    returns ranges with [start <= end] of which each starts strictly after
    the one before it ends; it never returns more ranges than it was
    given, and merging its result again changes nothing. *)
Theorem mergeRanges_separates (ranges : list Range) :
  Forall ordered ranges ->
  Forall ordered (mergeRanges ranges)
  /\ consecutive_apart (mergeRanges ranges)
  /\ (List.length (mergeRanges ranges) <= List.length ranges)%nat
  /\ mergeRanges (mergeRanges ranges) = mergeRanges ranges.
Proof.
  intros Ho. destruct ranges as [|r l].
  - repeat split; try constructor. intros i; destruct i; discriminate.
  - rewrite mergeRanges_cons. inversion Ho as [|? ? Hr Hl]; subst.
    pose proof (merge_from_ordered r l Hr Hl) as Ho'.
    pose proof (merge_from_apart r l Hl) as Hs'.
    repeat split; [exact Ho' | now apply apart_consecutive
                   | apply merge_from_length |].
    destruct (merge_from r l) as [|r' l'] eqn:E; [reflexivity|].
    rewrite mergeRanges_cons. now apply merge_from_fixed.
Qed.

Lemma mergeRanges_separates_witness :
  Forall ordered (mergeRanges [(5, 9); (1, 3); (2, 4)])
  /\ consecutive_apart (mergeRanges [(5, 9); (1, 3); (2, 4)])
  /\ (List.length (mergeRanges [(5, 9); (1, 3); (2, 4)]%Z)
      <= List.length [(5, 9); (1, 3); (2, 4)]%Z)%nat
  /\ mergeRanges (mergeRanges [(5, 9); (1, 3); (2, 4)])
     = mergeRanges [(5, 9); (1, 3); (2, 4)].
Proof.
  apply (mergeRanges_separates [(5, 9); (1, 3); (2, 4)]).
  repeat constructor; unfold ordered; cbn [fst snd]; lia.
Defined.

Lemma covers_cons r l x :
  covers (r :: l) x <-> (fst r <= x < snd r) \/ covers l x.
Proof.
  unfold covers. cbn [In]. split.
  - intros [r' [[<-|H] Hx]]; [now left | right; now exists r'].
  - intros [Hx|[r' [H Hx]]]; [exists r | exists r']; tauto.
Qed.

Lemma merge_from_covers l : forall cur x,
  StronglySorted starts_ascending (cur :: l) ->
  (covers (merge_from cur l) x <-> covers (cur :: l) x).
Proof.
  induction l as [|[s e] l IH]; intros [ls le] x Hs; cbn [merge_from];
    [reflexivity|].
  inversion Hs as [|? ? Hs' Hall]; subst.
  inversion Hs' as [|? ? Hs'' Hall']; subst.
  inversion Hall as [|? ? Hse Hall'']; subst.
  unfold starts_ascending in Hse. cbn [fst snd] in *.
  destruct (Z.leb_spec s le).
  - rewrite IH.
    + rewrite !covers_cons. cbn [fst snd].
      assert (Hx : ls <= x < Z.max le e <-> (ls <= x < le) \/ (s <= x < e))
        by lia.
      tauto.
    + constructor; [exact Hs''|].
      eapply Forall_impl; [|exact Hall''].
      unfold starts_ascending. cbn [fst]. tauto.
  - rewrite (covers_cons (ls, le)), IH by exact Hs'.
    rewrite !covers_cons. tauto.
Qed.

Lemma mergeRanges_covers_sorted ranges x :
  StronglySorted starts_ascending ranges ->
  (covers (mergeRanges ranges) x <-> covers ranges x).
Proof.
  intros Hs. destruct ranges as [|r l]; [reflexivity|].
  rewrite mergeRanges_cons. now apply merge_from_covers.
Qed.

(** X5. On ranges sorted by start, merging neither adds nor removes a
    highlighted offset: an offset lies in a merged range exactly when it
    lies in one of the given ranges. *)
Theorem mergeRanges_covers (ranges : list Range) (x : Z) :
  StronglySorted starts_ascending ranges ->
  (covers (mergeRanges ranges) x <-> covers ranges x).
Proof. apply mergeRanges_covers_sorted. Qed.

Lemma mergeRanges_covers_witness :
  covers (mergeRanges [(1, 3); (3, 5); (6, 8)]) 4
  <-> covers [(1, 3); (3, 5); (6, 8)] 4.
Proof.
  apply (mergeRanges_covers [(1, 3); (3, 5); (6, 8)] 4).
  repeat constructor; unfold starts_ascending; cbn [fst]; lia.
Defined.

(** X6. The whole pipeline preserves the set of highlighted offsets: an
    offset lies in a processed range exactly when it lies between the
    smaller and the larger endpoint of one of the ranges given. *)
Theorem processRanges_covers (ranges : list Range) (x : Z) :
  covers (processRanges ranges) x
  <-> covers (map order_endpoints ranges) x.
Proof.
  rewrite processRanges_unfold.
  pose proof (normalizeRanges_perm ranges) as Hp.
  pose proof (normalizeRanges_strongly ranges) as Hs.
  rewrite mergeRanges_covers_sorted.
  - unfold covers. split; intros [r [Hin Hx]]; exists r; split; try exact Hx.
    + apply (proj1 (removeDuplicates_In _ _)) in Hin.
      eapply Permutation_in; [exact Hp | exact Hin].
    + apply removeDuplicates_In.
      eapply Permutation_in; [apply Permutation_sym; exact Hp | exact Hin].
  - rewrite removeDuplicates_first. apply first_occurrences_sorted.
    clear Hp. induction Hs as [|a l Hs IH Hall]; constructor; [exact IH|].
    eapply Forall_impl; [|exact Hall].
    unfold range_le, starts_ascending. lia.
Qed.

(* ================================================================== *)
(** ** Further properties of the escaper *)

Lemma spec_escape_char_inj c c' r r' :
  spec_escape_char c ++ r = spec_escape_char c' ++ r' -> c = c' /\ r = r'.
Proof.
  unfold spec_escape_char.
  destruct (N.eqb_spec c 38); [|destruct (N.eqb_spec c 60);
    [|destruct (N.eqb_spec c 62); [|destruct (N.eqb_spec c 34);
      [|destruct (N.eqb_spec c 39)]]]];
  (destruct (N.eqb_spec c' 38); [|destruct (N.eqb_spec c' 60);
    [|destruct (N.eqb_spec c' 62); [|destruct (N.eqb_spec c' 34);
      [|destruct (N.eqb_spec c' 39)]]]]);
  subst; simpl; intros H; injection H; intros; subst;
    try discriminate; try congruence; now split.
Qed.

Lemma escapeHtml_injective_flat s : forall t,
  flat_map spec_escape_char s = flat_map spec_escape_char t -> s = t.
Proof.
  assert (Hne : forall c r, spec_escape_char c ++ r <> []).
  { intros c r H. apply app_eq_nil in H. destruct H as [H _].
    destruct (spec_escape_char_cases c) as [[He _]|[He _]].
    - rewrite H in He. unfold spec_entities in He.
      repeat (destruct He as [He|He]; [discriminate|]). destruct He.
    - rewrite H in He. discriminate. }
  induction s as [|c s IH]; intros [|c' t] H; cbn [flat_map] in H.
  - reflexivity.
  - symmetry in H. now apply Hne in H.
  - now apply Hne in H.
  - apply spec_escape_char_inj in H. destruct H as [-> H].
    f_equal. now apply IH.
Qed.

(** X7. Escaping loses nothing: two texts with the same escaped form are
    the same text. *)
Theorem escapeHtml_injective (s t : jsstring) :
  escapeHtml s = escapeHtml t -> s = t.
Proof. rewrite !escapeHtml_flat_map. apply escapeHtml_injective_flat. Qed.

Lemma escapeHtml_injective_witness :
  escapeHtml (codes "a<b") = escapeHtml (codes "a<b")
  /\ codes "a<b" = codes "a<b".
Proof.
  split; [reflexivity|].
  apply (escapeHtml_injective (codes "a<b") (codes "a<b")). reflexivity.
Defined.

Lemma escapeHtml_plain s :
  Forall (fun c => is_html_special c = false) s -> escapeHtml s = s.
Proof.
  rewrite escapeHtml_flat_map.
  induction 1 as [|c s Hc Hs IH]; cbn [flat_map]; [reflexivity|].
  rewrite IH. destruct (spec_escape_char_cases c) as [[_ H]|[-> _]];
    [congruence | reflexivity].
Qed.

(** X8. Escaping works piece by piece and never shortens: the escaped form
    of a concatenation is the concatenation of the escaped forms, the
    result is at least as long as the text, and a text without any of the
    five special characters is returned unchanged. *)
Theorem escapeHtml_compositional (s t : jsstring) :
  escapeHtml (s ++ t) = escapeHtml s ++ escapeHtml t
  /\ len s <= len (escapeHtml s)
  /\ (forallb (fun c => negb (is_html_special c)) s = true -> escapeHtml s = s).
Proof.
  split; [|split].
  - rewrite !escapeHtml_flat_map. apply flat_map_app.
  - apply escapeHtml_length.
  - intros H. apply escapeHtml_plain. rewrite forallb_forall in H.
    apply Forall_forall. intros c Hc. specialize (H c Hc).
    now apply negb_true_iff in H.
Qed.

(* ================================================================== *)
(** ** Further properties of the full-text highlighter *)

Lemma highlighted_count_cons text r ranges :
  highlighted_count text (r :: ranges)
  = (if is_highlighted text r then 1 else 0) + highlighted_count text ranges.
Proof.
  unfold highlighted_count. cbn [filter].
  destruct (is_highlighted text r); cbn [List.length]; lia.
Qed.

Lemma highlight_from_lower text ranges : forall lastIndex,
  len text - rel_index (len text) lastIndex + 9 * highlighted_count text ranges
  <= len (highlight_from text lastIndex ranges).
Proof.
  induction ranges as [|[s e] rest IH]; intros lastIndex.
  - cbn [highlight_from]. unfold highlighted_count. cbn [filter List.length].
    unfold len at 3. rewrite slice_length_to_end.
    pose proof (rel_index_bounds (len text) lastIndex (len_nonneg text)). lia.
  - cbn [highlight_from]. rewrite highlighted_count_cons.
    unfold is_highlighted. cbn [fst snd].
    destruct (Nat.eqb_spec (List.length (slice text s (Some e))) 0) as [E|E];
      cbn [negb]; [apply IH|].
    specialize (IH e). unfold len at 3. unfold len at 3 in IH.
    rewrite !length_app, !slice_length.
    rewrite slice_length in E.
    change (List.length (codes "<em>")) with 4%nat.
    change (List.length (codes "</em>")) with 5%nat.
    pose proof (rel_index_bounds (len text) lastIndex (len_nonneg text)).
    pose proof (rel_index_bounds (len text) s (len_nonneg text)).
    pose proof (rel_index_bounds (len text) e (len_nonneg text)).
    lia.
Qed.

(** X9. Whatever the ranges hold (inverted, negative or beyond the text),
    the full-text highlighter loses no character: on a non-empty range
    list its output is at least as long as the text plus the nine
    characters of the two markers for every range it wraps. *)
Theorem highlightText_never_shorter (text : jsstring) (ranges : list Range) :
  ranges <> [] ->
  len text + 9 * highlighted_count text ranges
  <= len (highlightText text ranges).
Proof.
  intros Hr. destruct text as [|c text].
  - destruct ranges as [|r ranges]; [congruence|].
    assert (H : highlighted_count [] (r :: ranges) = 0).
    { unfold highlighted_count.
      replace (filter (is_highlighted []) (r :: ranges)) with (@nil Range);
        [reflexivity|].
      symmetry. generalize (r :: ranges). intros l.
      induction l as [|[s e] l IH]; [reflexivity|].
      cbn [filter]. unfold is_highlighted at 1.
      rewrite slice_length. cbn [fst snd].
      pose proof (rel_index_bounds (len []) s (len_nonneg [])).
      pose proof (rel_index_bounds (len []) e (len_nonneg [])).
      change (len []) with 0 in *.
      replace (Z.to_nat (rel_index 0 e - rel_index 0 s)) with 0%nat by lia.
      exact IH. }
    rewrite H. reflexivity.
  - rewrite highlightText_past_guard by (assumption || discriminate).
    pose proof (highlight_from_lower (c :: text) ranges 0) as H.
    rewrite rel_index_inside in H by (pose proof (len_nonneg (c :: text)); lia).
    lia.
Qed.

Lemma highlightText_never_shorter_witness :
  len (codes "abcdef") + 9 * highlighted_count (codes "abcdef") [(-3, -1); (4, 2); (1, 99)]
  <= len (highlightText (codes "abcdef") [(-3, -1); (4, 2); (1, 99)]).
Proof.
  apply (highlightText_never_shorter (codes "abcdef") [(-3, -1); (4, 2); (1, 99)]).
  discriminate.
Defined.

Lemma highlight_from_exact text ranges : forall cursor,
  0 <= cursor <= len text ->
  Forall (fun r => 0 <= fst r /\ fst r <= snd r /\ snd r <= len text) ranges ->
  StronglySorted starts_ascending ranges ->
  ForallOrdPairs disjoint ranges ->
  Forall (fun r => fst r < snd r -> cursor <= fst r) ranges ->
  len (highlight_from text cursor ranges)
  = len text - cursor + 9 * highlighted_count text ranges.
Proof.
  induction ranges as [|[s e] rest IH]; intros cursor Hc Hin Hs Hd Hcur.
  - cbn [highlight_from]. unfold highlighted_count. cbn [filter List.length].
    unfold len at 1. rewrite slice_length_to_end, rel_index_inside by exact Hc.
    lia.
  - cbn [highlight_from]. rewrite highlighted_count_cons.
    inversion Hin as [|? ? [Hs0 [Hse Hen]] Hin']; subst.
    inversion Hs as [|? ? Hs' Hle]; subst.
    inversion Hd as [|? ? Hdis Hd']; subst.
    inversion Hcur as [|? ? Hcs Hcur']; subst.
    unfold is_highlighted. cbn [fst snd] in *.
    rewrite slice_length, !rel_index_inside by lia.
    destruct (Nat.eqb_spec (Z.to_nat (e - s)) 0) as [E|E]; cbn [negb].
    + now apply IH.
    + assert (Hlt : s < e) by lia. specialize (Hcs Hlt).
      unfold len at 1. rewrite !length_app, !slice_length.
      rewrite !rel_index_inside by lia.
      change (List.length (codes "<em>")) with 4%nat.
      change (List.length (codes "</em>")) with 5%nat.
      assert (IH' : len (highlight_from text e rest)
                    = len text - e + 9 * highlighted_count text rest).
      { apply IH; try assumption; try lia.
        rewrite Forall_forall in *. intros r Hr Hrne.
        specialize (Hdis r Hr). specialize (Hle r Hr).
        unfold disjoint, starts_ascending in *. cbn [fst snd] in *. lia. }
      unfold len at 1 in IH'. lia.
Qed.

(** X10. On a non-empty text and a non-empty range list that is sorted,
    pairwise disjoint and within the text, the output of the full-text
    highlighter has exactly the length of the text plus nine characters
    for every range that is not empty. *)
Theorem highlightText_exact_length (text : jsstring) (ranges : list Range) :
  text <> [] -> ranges <> [] -> well_placed text ranges ->
  len (highlightText text ranges)
  = len text + 9 * highlighted_count text ranges.
Proof.
  intros Ht Hr [Hin [Hs Hd]].
  rewrite highlightText_past_guard by assumption.
  rewrite highlight_from_exact; try assumption.
  - lia.
  - pose proof (len_nonneg text). lia.
  - eapply Forall_impl; [|exact Hin]. cbv beta. intros r H _. lia.
Qed.

Lemma highlightText_exact_length_witness :
  len (highlightText (codes "abc def ghi") [(0, 3); (4, 4); (4, 7)])
  = len (codes "abc def ghi")
    + 9 * highlighted_count (codes "abc def ghi") [(0, 3); (4, 4); (4, 7)].
Proof.
  apply (highlightText_exact_length (codes "abc def ghi")
           [(0, 3); (4, 4); (4, 7)]); try discriminate.
  unfold well_placed. repeat split.
  - repeat constructor; vm_compute; congruence.
  - repeat constructor; unfold starts_ascending; cbn [fst snd]; lia.
  - repeat constructor; unfold disjoint; cbn [fst snd]; lia.
Defined.

(** *** What the output of the facade holds *)

Lemma In_dropWhile p (c : char) s : In c (dropWhile p s) -> In c s.
Proof.
  induction s as [|a s IH]; cbn [dropWhile]; [tauto|].
  destruct (p a); [|tauto]. intros H. right. now apply IH.
Qed.

Lemma In_trim (c : char) s : In c (trim s) -> In c s.
Proof.
  unfold trim, trimEnd, trimStart. intros H.
  apply in_rev, In_dropWhile in H. apply in_rev in H.
  now apply In_dropWhile in H.
Qed.

Lemma escapeHtml_specials c s :
  In c (escapeHtml s) -> is_html_special c = true -> c = 38%N.
Proof.
  rewrite escapeHtml_flat_map, in_flat_map. intros [a [_ Hc]] Hs.
  destruct (spec_escape_char_cases a) as [[He _]|[He Ha]].
  - destruct (In_nth_error _ _ Hc) as [i Hi].
    pose proof (entity_special_first _ _ _ He Hi Hs) as ->.
    unfold spec_entities in He.
    repeat (destruct He as [He|He];
            [rewrite <- He in Hi; vm_compute in Hi; congruence|]).
    destruct He.
  - rewrite He in Hc. destruct Hc as [->|[]]. congruence.
Qed.

Lemma strip_highlight_from_In text ranges c :
  ~ In 60%N text -> forall cursor,
  In c (strip_markers (highlight_from text cursor ranges)) -> In c text.
Proof.
  intros Hlt. induction ranges as [|[s e] rest IH]; intros cursor;
    cbn [highlight_from].
  - rewrite strip_markers_plain by (intros H; now apply slice_In in H).
    apply slice_In.
  - destruct (List.length (slice text s (Some e)) =? 0)%nat; [apply IH|].
    unfold strip_markers.
    rewrite strip_markers_text by (intros H; now apply slice_In in H).
    rewrite strip_markers_open.
    rewrite strip_markers_text by (intros H; now apply slice_In in H).
    rewrite strip_markers_close.
    rewrite !in_app_iff. intros [H|[H|H]];
      [now apply slice_In in H | now apply slice_In in H | now apply (IH e)].
Qed.

(** X11. In full-text mode the facade lets no markup of the text through:
    once the two markers are deleted from its output, what remains holds
    no less-than sign, greater-than sign, double quote or apostrophe; the
    only special character left is the ampersand of the entities. *)
Theorem facade_output_escaped (text : jsstring) (ranges : list Range)
    (out : jsstring) (c : char) :
  highlightTextRanges text ranges false = Return out ->
  In c (strip_markers out) -> is_html_special c = true -> c = 38%N.
Proof.
  intros H Hc Hs.
  destruct text as [|a text]; [discriminate|].
  destruct ranges as [|r ranges]; [discriminate|].
  destruct (highlightTextRanges_nonempty (a :: text) (r :: ranges) false)
    as [s0 [e0 [rest [_ E]]]]; try discriminate.
  rewrite E in H. injection H as <-. unfold dispatch in Hc.
  set (esc := trim (escapeHtml (a :: text))) in *.
  assert (Hesc : forall c', In c' esc -> is_html_special c' = true -> c' = 38%N).
  { intros c' Hin. apply In_trim in Hin.
    now apply (escapeHtml_specials c' (a :: text)). }
  apply Hesc; [|exact Hs].
  destruct esc as [|b esc'] eqn:Ee; [destruct Hc|].
  rewrite highlightText_past_guard in Hc by discriminate.
  apply strip_highlight_from_In in Hc; [exact Hc|].
  intros H60. specialize (Hesc _ H60 eq_refl). discriminate.
Qed.

Lemma facade_output_escaped_witness :
  highlightTextRanges (codes "a<b>'c'") [(2, 5)] false
  = Return (codes "a&<em>lt;</em>b&gt;&#39;c&#39;")
  /\ In 38%N (strip_markers (codes "a&<em>lt;</em>b&gt;&#39;c&#39;"))
  /\ is_html_special 38 = true /\ 38%N = 38%N.
Proof.
  assert (H1 : highlightTextRanges (codes "a<b>'c'") [(2, 5)] false
               = Return (codes "a&<em>lt;</em>b&gt;&#39;c&#39;"))
    by (vm_compute; reflexivity).
  assert (H2 : In 38%N (strip_markers (codes "a&<em>lt;</em>b&gt;&#39;c&#39;")))
    by (vm_compute; tauto).
  exact (conj H1 (conj H2 (conj eq_refl
           (facade_output_escaped (codes "a<b>'c'") [(2, 5)] _ 38%N
              H1 H2 eq_refl)))).
Defined.

(** X12. A single range from 0 to the length of the text highlights the
    whole text, however much escaping lengthens it: the result is the
    escaped, trimmed text between the two markers. *)
Theorem facade_highlights_whole_text (text : jsstring) :
  has_nonspace text ->
  highlightTextRanges text [(0, len text)] false
  = Return (codes "<em>" ++ escapeHtml (trim text) ++ codes "</em>").
Proof.
  intros Hn.
  assert (Ht : text <> []) by (destruct Hn as [c [[] _]] || (intros ->; destruct Hn as [c [[] _]])).
  destruct (highlightTextRanges_nonempty text [(0, len text)] false Ht)
    as [s0 [e0 [rest [Hp E]]]]; [discriminate|].
  rewrite processRanges_fixed in Hp.
  2:{ repeat constructor. unfold ordered. cbn [fst snd]. apply len_nonneg. }
  2:{ repeat constructor. }
  injection Hp as <- <- <-. rewrite E, Z.eqb_refl. unfold dispatch.
  rewrite trim_escapeHtml.
  set (esc := escapeHtml (trim text)).
  assert (Hesc : esc <> []).
  { intros He. apply trim_nonempty in Hn.
    pose proof (escapeHtml_length (trim text)) as Hl. fold esc in Hl.
    rewrite He in Hl. change (len []) with 0 in Hl.
    apply Z.ltb_lt in Hn. lia. }
  rewrite highlightText_past_guard by (assumption || discriminate).
  cbn [highlight_from].
  pose proof (len_nonneg esc) as Hl.
  assert (Hpos : 0 < len esc).
  { unfold len. destruct esc; [congruence | cbn [List.length]; lia]. }
  rewrite slice_length, !rel_index_inside by lia.
  destruct (Nat.eqb_spec (Z.to_nat (len esc - 0)) 0) as [E0|_]; [lia|].
  rewrite !slice_inside, slice_to_end_inside by lia.
  replace (Z.to_nat (0 - 0)) with 0%nat by lia.
  replace (Z.to_nat (len esc - 0)) with (List.length esc)
    by (unfold len; lia).
  replace (Z.to_nat (len esc)) with (List.length esc) by (unfold len; lia).
  cbn [Z.to_nat skipn firstn app].
  rewrite firstn_all, skipn_all. now rewrite app_nil_r.
Qed.

Lemma facade_highlights_whole_text_witness :
  highlightTextRanges (codes " <b>Tom & Jerry</b> ")
    [(0, len (codes " <b>Tom & Jerry</b> "))] false
  = Return (codes "<em>"
              ++ escapeHtml (trim (codes " <b>Tom & Jerry</b> "))
              ++ codes "</em>").
Proof.
  apply (facade_highlights_whole_text (codes " <b>Tom & Jerry</b> ")).
  exists 84%N. split; [vm_compute; tauto | reflexivity].
Defined.

(* ================================================================== *)
(** ** Whitespace in contexts and excerpts *)

Lemma dropWhile_suffix p (s : jsstring) : exists pre, s = pre ++ dropWhile p s.
Proof.
  induction s as [|a s [pre IH]]; cbn [dropWhile]; [now exists []|].
  destruct (p a); [|now exists []].
  exists (a :: pre). cbn [app]. now rewrite <- IH.
Qed.

(** What [trim] returns sits inside its argument. *)
Lemma trim_inside s : exists pre post, s = pre ++ trim s ++ post.
Proof.
  unfold trim, trimEnd, trimStart.
  destruct (dropWhile_suffix is_ws s) as [pre Hpre].
  destruct (dropWhile_suffix is_ws (List.rev (dropWhile is_ws s))) as [post Hpost].
  exists pre, (List.rev post).
  rewrite <- rev_app_distr, <- Hpost, rev_involutive. exact Hpre.
Qed.

Lemma trim_trimmed s : trimmed (trim s).
Proof.
  split; intros c Hc.
  - destruct (trim s) as [|a t] eqn:E; [discriminate|].
    injection Hc as ->.
    unfold trim, trimEnd in E.
    destruct (dropWhile_suffix is_ws (List.rev (trimStart s))) as [post Hpost].
    apply (f_equal (@List.rev N)) in Hpost.
    rewrite rev_involutive, rev_app_distr, E in Hpost.
    unfold trimStart in Hpost. cbn [app] in Hpost.
    now apply (dropWhile_head is_ws s c (t ++ List.rev post)).
  - unfold trim, trimEnd in Hc. rewrite rev_involutive in Hc.
    destruct (dropWhile is_ws (List.rev (trimStart s))) as [|a t] eqn:E;
      [discriminate|].
    injection Hc as ->. now apply (dropWhile_head _ _ _ _ E).
Qed.

Lemma single_spaced_weaken b s :
  single_spaced b s = true -> single_spaced false s = true.
Proof.
  destruct s as [|c s]; [reflexivity|]. cbn [single_spaced].
  destruct (is_ws c); [|tauto].
  rewrite !andb_true_iff. cbn [negb]. tauto.
Qed.

Lemma single_spaced_app_l b s t :
  single_spaced b (s ++ t) = true -> single_spaced b s = true.
Proof.
  revert b. induction s as [|c s IH]; intros b; [reflexivity|].
  cbn [app single_spaced]. destruct (is_ws c); [|apply IH].
  rewrite !andb_true_iff. intros [H1 H2]. split; [exact H1 | now apply IH].
Qed.

Lemma single_spaced_app_r b s t :
  single_spaced b (s ++ t) = true -> single_spaced false t = true.
Proof.
  revert b. induction s as [|c s IH]; intros b; cbn [app].
  - apply single_spaced_weaken.
  - cbn [single_spaced]. destruct (is_ws c); [|apply IH].
    rewrite !andb_true_iff. intros [_ H]. now apply IH in H.
Qed.

Lemma trim_single_spaced s :
  single_spaced false s = true -> single_spaced false (trim s) = true.
Proof.
  intros H. destruct (trim_inside s) as [pre [post E]]. rewrite E in H.
  apply single_spaced_app_r in H. now apply single_spaced_app_l in H.
Qed.

Lemma collapse_empty f prev : Re.replace_all_from re_spaces f prev [] 0 = [].
Proof. reflexivity. Qed.

(** After the collapse every whitespace character is a single space. *)
Lemma collapse_single_spaced n : forall s prev,
  (List.length s <= n)%nat ->
  single_spaced false
    (Re.replace_all_from re_spaces (fun _ => codes " ") prev s 0) = true.
Proof.
  induction n as [|n IH]; intros s prev Hn.
  - destruct s; [reflexivity | cbn [List.length] in Hn; lia].
  - destruct s as [|a s]; [reflexivity|]. cbn [List.length] in Hn.
    destruct (is_ws a) eqn:Ea.
    + destruct (collapse_hit prev a s Ea) as [prev' ->].
      change (codes " ") with [32%N]. cbn [app single_spaced].
      change (is_ws 32) with true. cbn [N.eqb Pos.eqb negb andb].
      pose proof (dropWhile_length is_ws s) as Hd.
      destruct (dropWhile is_ws s) as [|y d] eqn:E; [reflexivity|].
      pose proof (dropWhile_head _ _ _ _ E) as Hy.
      rewrite collapse_miss by exact Hy.
      cbn [single_spaced]. rewrite Hy. apply IH.
      cbn [List.length] in Hd. lia.
    + rewrite collapse_miss by exact Ea.
      cbn [single_spaced]. rewrite Ea. apply IH. lia.
Qed.

Lemma context_trimmed text r index :
  trimmed (context (extractTextSegment text r index)).
Proof.
  destruct r as [start end_]. unfold extractTextSegment. cbn [context].
  apply trim_trimmed.
Qed.

Lemma context_single_spaced text r index :
  single_spaced false (context (extractTextSegment text r index)) = true.
Proof.
  destruct r as [start end_]. unfold extractTextSegment. cbn [context].
  apply trim_single_spaced. unfold Re.replace_all.
  now apply (collapse_single_spaced _ _ None (Nat.le_refl _)).
Qed.

(** X13. The context of an extracted segment is normalised: it neither
    starts nor ends with whitespace, and the only whitespace it holds are
    single spaces. *)
Theorem extractTextSegment_context_normalised (text : jsstring) (r : Range)
    (index : nat) :
  trimmed (context (extractTextSegment text r index))
  /\ single_spaced false (context (extractTextSegment text r index)) = true.
Proof. split; [apply context_trimmed | apply context_single_spaced]. Qed.

Lemma trimmed_ends s : trimmed s -> s = [] \/ ends_nonspace s.
Proof.
  intros [_ H]. destruct (List.rev s) as [|c t] eqn:E.
  - left. apply (f_equal (@List.rev N)) in E.
    now rewrite rev_involutive in E.
  - right. exists (List.rev t), c. split; [|now apply H].
    apply (f_equal (@List.rev N)) in E. now rewrite rev_involutive in E.
Qed.

Lemma ends_nonspace_app s t : ends_nonspace t -> ends_nonspace (s ++ t).
Proof.
  intros [t' [c [-> Hc]]]. exists (s ++ t'), c. now rewrite app_assoc.
Qed.

Lemma single_spaced_join s t : forall b,
  single_spaced b s = true -> s = [] \/ ends_nonspace s ->
  single_spaced false t = true ->
  single_spaced false (s ++ t) = true.
Proof.
  intros b Hs [->|[s' [c [-> Hc]]]] Ht; [exact Ht|].
  apply single_spaced_weaken with (b := b).
  revert b Hs. induction s' as [|a s' IH]; intros b Hs.
  - cbn [app single_spaced]. now rewrite Hc.
  - cbn [app single_spaced] in *. destruct (is_ws a); [|now apply IH].
    rewrite !andb_true_iff in *. destruct Hs as [H1 H2].
    split; [exact H1 | now apply IH].
Qed.

(** A context that follows another one, after the rewrite of the seam: a
    space, then a normalised string. *)
Lemma later_context_rewritten text r i :
  exists y z,
    Re.replace re_seam (codes " ") (context (extractTextSegment text r (S i)))
    = 32%N :: y :: z
    /\ single_spaced false (32%N :: y :: z) = true
    /\ ends_nonspace (32%N :: y :: z).
Proof.
  pose proof (context_trimmed text r (S i)) as Ht.
  pose proof (context_single_spaced text r (S i)) as Hs.
  destruct (extractTextSegment_later text r i) as [y [z [E Hy]]].
  rewrite E in *. exists y, z.
  rewrite (seam_rewrite y z Hy). split; [reflexivity|].
  change (codes "[...] " ++ y :: z)
    with ([91; 46; 46; 46; 93]%N ++ 32%N :: y :: z) in Hs, Ht.
  split.
  - now apply single_spaced_app_r in Hs.
  - destruct Ht as [_ Ht].
    rewrite rev_app_distr in Ht.
    destruct (List.rev (32%N :: y :: z)) as [|c t] eqn:Er.
    + apply (f_equal (@List.length N)) in Er.
      rewrite length_rev in Er. discriminate.
    + exists (List.rev t), c. split; [|now apply Ht].
      apply (f_equal (@List.rev N)) in Er. now rewrite rev_involutive in Er.
Qed.

Lemma later_contexts_join text ranges : forall i acc,
  single_spaced false acc = true -> acc = [] \/ ends_nonspace acc ->
  single_spaced false
    (acc ++ List.concat
              (map (fun sg => Re.replace re_seam (codes " ") (context sg))
                 (map_index (extractTextSegment text) ranges (S i)))) = true.
Proof.
  induction ranges as [|r ranges IH]; intros i acc Hs He;
    cbn [map_index map List.concat].
  - now rewrite app_nil_r.
  - destruct (later_context_rewritten text r i) as [y [z [-> [Hs' He']]]].
    rewrite app_assoc. apply IH.
    + now apply (single_spaced_join acc _ false).
    + right. now apply ends_nonspace_app.
Qed.

Lemma excerptHighlighting_normalised text ranges :
  trimmed (excerptHighlighting text ranges)
  /\ single_spaced false (excerptHighlighting text ranges) = true.
Proof.
  unfold excerptHighlighting.
  destruct (negb (truthy text) || (List.length ranges =? 0)%nat).
  - split; [split; intros c H; discriminate | reflexivity].
  - split; [apply trim_trimmed|]. apply trim_single_spaced.
    destruct ranges as [|r ranges]; [reflexivity|].
    cbn [map_index List.length].
    pose proof (fold_excerptStep
                  (map_index (extractTextSegment text) ranges 1) []
                  (extractTextSegment text r 0) []) as H.
    cbn [List.length app] in H. rewrite H.
    apply later_contexts_join.
    + apply context_single_spaced.
    + apply trimmed_ends, context_trimmed.
Qed.

(** X14. In excerpt mode the result of the facade is normalised as a
    whole: it neither starts nor ends with whitespace, and the only
    whitespace it holds are single spaces, also where two segments
    meet. *)
Theorem facade_excerpt_normalised (text : jsstring) (ranges : list Range)
    (out : jsstring) :
  highlightTextRanges text ranges true = Return out ->
  trimmed out /\ single_spaced false out = true.
Proof.
  intros H.
  destruct text as [|a text]; [discriminate|].
  destruct ranges as [|r ranges]; [discriminate|].
  destruct (highlightTextRanges_nonempty (a :: text) (r :: ranges) true)
    as [s0 [e0 [rest [_ E]]]]; try discriminate.
  rewrite E in H. injection H as <-. unfold dispatch.
  apply excerptHighlighting_normalised.
Qed.

Lemma facade_excerpt_normalised_witness :
  trimmed (codes "Hello <em>world</em>! [...] text <em>for</em> testing [...]")
  /\ single_spaced false
       (codes "Hello <em>world</em>! [...] text <em>for</em> testing [...]")
     = true.
Proof.
  apply (facade_excerpt_normalised
           (codes "Hello world! This is a sample text for testing purposes.")
           [(6, 11); (35, 38)]).
  vm_compute. reflexivity.
Defined.

(* ================================================================== *)
(** ** The two boundary regular expressions *)

Lemma star_inv p k prev s c res :
  Re.star p k prev s c = Some res ->
  exists prev' s', k prev' s' c = Some res /\ is_suffix s' s.
Proof.
  revert prev. induction s as [|a s IH]; intros prev H; cbn [Re.star] in H.
  - exists prev, []. split; [exact H | apply is_suffix_refl].
  - assert (Hk : k prev (a :: s) c = Some res ->
                 exists prev' s', k prev' s' c = Some res /\ is_suffix s' (a :: s)).
    { intros E. exists prev, (a :: s). split; [exact E | apply is_suffix_refl]. }
    destruct (p a); [|now apply Hk].
    destruct (Re.star p k (Some a) s c) as [res'|] eqn:E; [|now apply Hk].
    injection H as <-. destruct (IH _ E) as [prev' [s' [Hr Hs]]].
    exists prev', s'. split; [exact Hr|].
    eapply is_suffix_trans; [exact Hs | apply is_suffix_cons].
Qed.

(** The star finds a split at which the continuation succeeds. *)
Lemma star_complete p k w r c :
  Forall (fun a => p a = true) w ->
  (forall prev, k prev r c <> None) ->
  forall prev, Re.star p k prev (w ++ r) c <> None.
Proof.
  intros Hw Hk. induction Hw as [|a w Ha Hw IH]; intros prev; cbn [app].
  - destruct r as [|b r]; cbn [Re.star]; [apply Hk|].
    destruct (p b); [|apply Hk].
    destruct (Re.star p k (Some b) r c); [discriminate | apply Hk].
  - cbn [Re.star]. rewrite Ha.
    destruct (Re.star p k (Some a) (w ++ r) c) eqn:E; [discriminate|].
    now apply IH in E.
Qed.

Lemma is_suffix_In (c : char) s' s : is_suffix s' s -> In c s' -> In c s.
Proof. intros [m ->] H. apply in_or_app. now right. Qed.

Lemma is_suffix_length (s' s : jsstring) :
  is_suffix s' s -> (List.length s' <= List.length s)%nat.
Proof. intros [m ->]. rewrite length_app. lia. Qed.

(** A prefix on which [p] holds, up to the first character on which it
    does not. *)
Lemma dropWhile_split p (s : jsstring) :
  exists pre, s = pre ++ dropWhile p s /\ Forall (fun a => p a = true) pre.
Proof.
  induction s as [|a s [pre [IH Hp]]]; cbn [dropWhile];
    [exists []; split; [reflexivity | constructor]|].
  destruct (p a) eqn:E.
  - exists (a :: pre). cbn [app]. split; [now rewrite <- IH | now constructor].
  - exists []. split; [reflexivity | constructor].
Qed.

(** *** The expression for [next] *)

Lemma re_after_not_at_start s prev i :
  prev <> None -> Re.exec_from re_after prev s i = None.
Proof.
  revert prev i. induction s as [|a s IH]; intros prev i Hp;
    (destruct prev as [b|]; [|congruence]); cbn [Re.exec_from];
    unfold Re.match_at, re_after; cbn [Re.run]; [reflexivity|].
  apply IH. discriminate.
Qed.

Lemma re_after_exec s :
  Re.exec re_after s
  = match Re.match_at re_after None s with
    | Some (rest, c) =>
        Some (Re.MatchResult 0 (firstn (List.length s - List.length rest) s)
                c rest)
    | None => None
    end.
Proof.
  unfold Re.exec. destruct s as [|a s]; cbn [Re.exec_from];
    destruct (Re.match_at re_after None _) as [[rest c]|]; try reflexivity.
  apply re_after_not_at_start. discriminate.
Qed.

Lemma group_punct_inv prev s c res :
  Re.run (Re.Grp 1 (Re.Cls is_punct)) (fun _ s' c' => Some (s', c')) prev s c
  = Some res ->
  exists a s', s = a :: s' /\ is_punct a = true
               /\ res = (s', (1%nat, [a]) :: c).
Proof.
  cbn [Re.run]. destruct s as [|a s']; [discriminate|].
  destruct (is_punct a) eqn:Ea; [|discriminate].
  change (a :: s') with ([a] ++ s') at 1 2. rewrite firstn_consumed.
  intros H. injection H as <-. now exists a, s'.
Qed.

Lemma group_word_inv prev s c res :
  Re.run (Re.Grp 2 (Re.Plus is_word)) (fun _ s' c' => Some (s', c')) prev s c
  = Some res ->
  exists a s' g rest, s = a :: s' /\ is_word a = true
                      /\ res = (rest, (2%nat, a :: g) :: c).
Proof.
  cbn [Re.run]. destruct s as [|a s']; [discriminate|].
  destruct (is_word a) eqn:Ea; [|discriminate].
  intros H. destruct (star_inv _ _ _ _ _ _ H) as [prev' [s'' [Hk Hs]]].
  cbv beta in Hk. apply is_suffix_length in Hs.
  replace (List.length (a :: s') - List.length s'')%nat
    with (S (List.length s' - List.length s'')) in Hk
    by (cbn [List.length]; lia).
  cbn [firstn] in Hk.
  exists a, s', (firstn (List.length s' - List.length s'') s'), s''.
  split; [reflexivity|]. split; [exact Ea|].
  clear H. injection Hk as Hk. now symmetry.
Qed.

Lemma re_after_alternatives s :
  Re.match_at re_after None s
  = match Re.star is_nonword
            (Re.run (Re.Grp 1 (Re.Cls is_punct)) (fun _ s' c' => Some (s', c')))
            None s [] with
    | Some res => Some res
    | None =>
        Re.star is_nonword
          (Re.run (Re.Grp 2 (Re.Plus is_word)) (fun _ s' c' => Some (s', c')))
          None s []
    end.
Proof. reflexivity. Qed.

(** A match captures a punctuation mark in group 1, or nothing in group 1
    and a word in group 2. *)
Lemma re_after_captures s rest c :
  Re.match_at re_after None s = Some (rest, c) ->
  (exists a, Re.capture 1 c = Some [a] /\ is_punct a = true /\ In a s)
  \/ (Re.capture 1 c = None
      /\ exists a g, Re.capture 2 c = Some (a :: g) /\ is_word a = true /\ In a s).
Proof.
  rewrite re_after_alternatives. intros H.
  match type of H with
  | match ?x with _ => _ end = _ => destruct x as [res|] eqn:E
  end.
  - injection H as ->.
    destruct (star_inv _ _ _ _ _ _ E) as [prev' [s' [Hk Hs]]].
    destruct (group_punct_inv _ _ _ _ Hk) as [a [s'' [-> [Ea Hres]]]].
    injection Hres as -> ->. left. exists a.
    repeat split; [exact Ea|]. apply (is_suffix_In _ _ _ Hs). now left.
  - destruct (star_inv _ _ _ _ _ _ H) as [prev' [s' [Hk Hs]]].
    destruct (group_word_inv _ _ _ _ Hk) as [a [s'' [g [rest' [-> [Ea Hres]]]]]].
    injection Hres as -> ->. right. split; [reflexivity|].
    exists a, g. repeat split; [exact Ea|].
    apply (is_suffix_In _ _ _ Hs). now left.
Qed.

Lemma star_total p k prev s c :
  (forall prev' s' c', k prev' s' c' <> None) ->
  Re.star p k prev s c <> None.
Proof.
  intros Hk. revert prev. induction s as [|a s IH]; intros prev; cbn [Re.star];
    [apply Hk|].
  destruct (p a); [|apply Hk].
  destruct (Re.star p k (Some a) s c); [discriminate | apply Hk].
Qed.

(** There is a match as soon as the text holds a word character or a
    punctuation mark. *)
Lemma re_after_complete s a :
  In a s -> is_word a || is_punct a = true ->
  Re.match_at re_after None s <> None.
Proof.
  intros Hin Ha.
  destruct (dropWhile_split (fun b => negb (is_word b || is_punct b)) s)
    as [w [Hs Hw]].
  destruct (dropWhile (fun b => negb (is_word b || is_punct b)) s)
    as [|b r] eqn:E.
  - exfalso. rewrite app_nil_r in Hs. subst w.
    rewrite Forall_forall in Hw. specialize (Hw a Hin).
    rewrite Ha in Hw. discriminate.
  - pose proof (dropWhile_head _ _ _ _ E) as Hb.
    apply negb_false_iff in Hb.
    assert (Hnw : Forall (fun x => is_nonword x = true) w).
    { eapply Forall_impl; [|exact Hw]. cbv beta. intros x Hx.
      unfold is_nonword. apply negb_true_iff in Hx.
      apply orb_false_iff in Hx. destruct Hx as [-> _]. reflexivity. }
    rewrite Hs, re_after_alternatives.
    match goal with
    | |- match ?x with _ => _ end <> None => destruct x eqn:E1
    end; [discriminate|].
    destruct (is_punct b) eqn:Ep.
    + exfalso. revert E1. apply star_complete; [exact Hnw|].
      intros prev. cbn [Re.run]. rewrite Ep. discriminate.
    + rewrite orb_false_r in Hb.
      apply star_complete; [exact Hnw|].
      intros prev. cbn [Re.run]. rewrite Hb. apply star_total. discriminate.
Qed.

Lemma next_none_iff text start end_ index :
  next (extractTextSegment text (start, end_) index) = None
  <-> forall c, In c (slice text end_ None) ->
                is_word c = false /\ is_punct c = false.
Proof.
  unfold extractTextSegment. cbn [next]. rewrite re_after_exec.
  destruct (Re.match_at re_after None (slice text end_ None))
    as [[rest caps]|] eqn:E; cbn [Re.groups].
  - destruct (re_after_captures _ _ _ E)
      as [[a [-> [Ha Hin]]] | [-> [a [g [-> [Ha Hin]]]]]];
      (split; [discriminate|]); intros H; destruct (H a Hin); congruence.
  - split; [|reflexivity]. intros _ c Hc.
    destruct (is_word c) eqn:Ew, (is_punct c) eqn:Ep; try (now split);
      exfalso; apply (re_after_complete _ c Hc); try exact E;
      now rewrite Ew, Ep.
Qed.

(** *** The expression for [previous] *)

Lemma re_before_unfold prev s :
  Re.match_at re_before prev s
  = if xorb (Re.word_before prev) (Re.word_after s)
    then match s with
         | a :: s' =>
             if is_word a
             then Re.star is_word
                    (Re.star is_punct
                       (Re.star is_nonword
                          (Re.run Re.Eol (fun _ s' c' => Some (s', c')))))
                    (Some a) s' []
             else None
         | [] => None
         end
    else None.
Proof. reflexivity. Qed.

Lemma re_before_sound s : forall prev i mr,
  Re.exec_from re_before prev s i = Some mr ->
  exists a, In a s /\ is_word a = true.
Proof.
  induction s as [|a s IH]; intros prev i mr H; cbn [Re.exec_from] in H;
    rewrite re_before_unfold in H.
  - destruct (xorb _ _); discriminate.
  - destruct (xorb _ _).
    + destruct (is_word a) eqn:Ea.
      * exists a. split; [now left | exact Ea].
      * destruct (IH _ _ _ H) as [b [Hb Hw]]. exists b. split; [now right | exact Hw].
    + destruct (IH _ _ _ H) as [b [Hb Hw]]. exists b. split; [now right | exact Hw].
Qed.

(** The expression matches at the start of the last word. *)
Lemma re_before_last_word prev a w r :
  Re.word_before prev = false -> is_word a = true ->
  Forall (fun b => is_word b = true) w ->
  Forall (fun b => is_nonword b = true) r ->
  Re.match_at re_before prev ((a :: w) ++ r) <> None.
Proof.
  intros Hp Ha Hw Hr. rewrite re_before_unfold. cbn [app Re.word_after].
  rewrite Hp, Ha. cbn [xorb].
  apply star_complete; [exact Hw|]. intros pv.
  apply (star_complete is_punct _ [] r); [constructor|]. intros pv'.
  rewrite <- (app_nil_r r).
  apply star_complete; [exact Hr|]. intros pv''. cbn [Re.run]. discriminate.
Qed.

Lemma exec_from_skip r x : forall prev y,
  (forall i, Re.exec_from r (fold_left (fun _ c => Some c) x prev) y i <> None) ->
  forall i, Re.exec_from r prev (x ++ y) i <> None.
Proof.
  induction x as [|a x IH]; intros prev y H i; cbn [app fold_left] in *;
    [apply H|].
  cbn [Re.exec_from].
  destruct (Re.match_at r prev (a :: x ++ y)) as [[rest c]|]; [discriminate|].
  now apply IH.
Qed.

Lemma word_before_after_nonwords x : forall prev,
  Re.word_before prev = false ->
  Forall (fun b => is_nonword b = true) x ->
  Re.word_before (fold_left (fun _ c => Some c) x prev) = false.
Proof.
  induction x as [|a x IH]; intros prev Hp Hx; cbn [fold_left]; [exact Hp|].
  inversion Hx as [|? ? Ha Hx']; subst. apply IH; [|exact Hx'].
  cbn [Re.word_before]. unfold is_nonword in Ha. now apply negb_true_iff in Ha.
Qed.

Lemma re_before_complete n : forall s prev,
  (List.length s <= n)%nat -> Re.word_before prev = false ->
  (exists a, In a s /\ is_word a = true) ->
  forall i, Re.exec_from re_before prev s i <> None.
Proof.
  induction n as [|n IH]; intros s prev Hn Hp [c [Hc Hw]].
  - destruct s; [destruct Hc | cbn [List.length] in Hn; lia].
  - destruct (dropWhile_split is_nonword s) as [nw [Hs Hnw]].
    destruct (dropWhile is_nonword s) as [|a rest] eqn:E.
    + exfalso. rewrite app_nil_r in Hs. subst nw.
      rewrite Forall_forall in Hnw. specialize (Hnw c Hc).
      unfold is_nonword in Hnw. rewrite Hw in Hnw. discriminate.
    + pose proof (dropWhile_head _ _ _ _ E) as Ha.
      unfold is_nonword in Ha. apply negb_false_iff in Ha.
      rewrite Hs. apply exec_from_skip.
      pose proof (word_before_after_nonwords nw prev Hp Hnw) as Hp1.
      set (prev1 := fold_left (fun _ c0 => Some c0) nw prev) in *.
      destruct (dropWhile_split is_word rest) as [w [Hrest Hww]].
      set (r := dropWhile is_word rest) in *.
      destruct (forallb is_nonword r) eqn:Er.
      * intros i. cbn [Re.exec_from].
        destruct (Re.match_at re_before prev1 (a :: rest)) as [[rest' c']|] eqn:Em;
          [discriminate|].
        exfalso. revert Em. rewrite Hrest.
        apply (re_before_last_word prev1 a w r Hp1 Ha Hww).
        apply Forall_forall. intros b Hb.
        rewrite forallb_forall in Er. now apply Er.
      * assert (Hex : exists b, In b r /\ is_word b = true).
        { destruct (forallb_forall is_nonword r) as [_ Hf].
          destruct (existsb is_word r) eqn:Ex.
          - apply existsb_exists in Ex. exact Ex.
          - exfalso. rewrite Hf in Er; [discriminate|].
            intros b Hb. unfold is_nonword. apply negb_true_iff.
            destruct (is_word b) eqn:Eb; [|reflexivity].
            assert (existsb is_word r = true)
              by (apply existsb_exists; now exists b).
            congruence. }
        destruct r as [|b r'] eqn:Err; [destruct Hex as [b [[] _]]|].
        assert (Hb : is_word b = false)
          by (apply (dropWhile_head is_word rest b r'); exact Err).
        replace (a :: rest) with ((a :: w ++ [b]) ++ r')
          by (rewrite Hrest; cbn [app]; now rewrite <- app_assoc).
        apply exec_from_skip.
        replace (fold_left (fun _ c0 => Some c0) (a :: w ++ [b]) prev1)
          with (Some b)
          by (cbn [fold_left]; now rewrite fold_left_app).
        apply IH.
        -- apply (f_equal (@List.length N)) in Hs.
           rewrite length_app in Hs. cbn [List.length] in Hs.
           apply (f_equal (@List.length N)) in Hrest.
           rewrite length_app in Hrest. cbn [List.length] in Hrest. lia.
        -- cbn [Re.word_before]. exact Hb.
        -- destruct Hex as [b' [[<-|Hb'] Hw']]; [congruence|].
           now exists b'.
Qed.

Lemma previous_none_iff text start end_ index :
  previous (extractTextSegment text (start, end_) index) = None
  <-> forall c, In c (slice text 0 (Some start)) -> is_word c = false.
Proof.
  unfold extractTextSegment. cbn [previous]. unfold Re.exec.
  destruct (Re.exec_from re_before None (slice text 0 (Some start)) 0)
    as [mr|] eqn:E.
  - split; [discriminate|]. intros H.
    destruct (re_before_sound _ _ _ _ E) as [a [Ha Hw]].
    specialize (H a Ha). congruence.
  - split; [|reflexivity]. intros _ c Hc.
    destruct (is_word c) eqn:Ew; [|reflexivity].
    exfalso. revert E.
    apply (re_before_complete _ _ None (Nat.le_refl _) eq_refl).
    now exists c.
Qed.

(** X15. The context words of a segment are missing exactly when there is
    nothing to take: [previous] is [null] exactly when no word character
    precedes the range, and [next] is [null] exactly when the text after
    the range holds neither a word character nor one of the punctuation
    marks [.,!?]. *)
Theorem extractTextSegment_null_context (text : jsstring) (start end_ : Z)
    (index : nat) :
  (previous (extractTextSegment text (start, end_) index) = None
   <-> Forall (fun c => is_word c = false) (slice text 0 (Some start)))
  /\ (next (extractTextSegment text (start, end_) index) = None
      <-> Forall (fun c => is_word c = false /\ is_punct c = false)
            (slice text end_ None)).
Proof.
  rewrite !Forall_forall. split.
  - apply previous_none_iff.
  - apply next_none_iff.
Qed.


(** X17. Ranges that went through the pipeline already can be given to the
    facade again: the result is the same as on the original ranges. *)
Theorem facade_accepts_processed (text : jsstring) (ranges : list Range)
    (createExcerpt : bool) :
  ranges <> [] ->
  highlightTextRanges text (processRanges ranges) createExcerpt
  = highlightTextRanges text ranges createExcerpt.
Proof.
  intros Hr. pose proof (processRanges_nonempty ranges Hr) as Hp.
  destruct (processRanges_invariant ranges) as [Ho Hs].
  unfold highlightTextRanges.
  rewrite (processRanges_fixed _ Ho Hs).
  destruct (processRanges ranges) as [|p l]; [congruence|].
  destruct ranges as [|r ranges]; [congruence|]. reflexivity.
Qed.

Lemma facade_accepts_processed_witness :
  highlightTextRanges (codes "abc def ghi")
    (processRanges [(10, 9); (4, 4); (0, 3)]) false
  = highlightTextRanges (codes "abc def ghi") [(10, 9); (4, 4); (0, 3)] false.
Proof.
  apply (facade_accepts_processed (codes "abc def ghi")
           [(10, 9); (4, 4); (0, 3)] false).
  discriminate.
Defined.
